(** * Holder snapshot: unit conversion, CLI parsing, aggregation, allocation

    A shallow embedding of [holders-snapshot.js] (the version with the
    [--airdrop] and [--exclude] flags).

    - JavaScript strings are lists of characters ([JSString]); a character
      is a code unit below 256, which covers every string the script
      builds itself (digits, ['.'], ['-'], flag names).
    - [BigInt] values are [Z]; BigInt division is [Z.quot] (truncation
      toward zero), the other operators are the ones of [Z].
    - [throw new Error(...)] is the [Err] case of [result]; the error kind
      stands for the message of the source.
    - A JavaScript [Map] is an association list in insertion order
      ([JSMap]); a [Set] is a duplicate-free list in insertion order. *)

From Stdlib Require Import String Ascii ZArith List Bool Lia Permutation Sorted.
Import ListNotations.

Local Open Scope Z_scope.

(** ** Strings *)

Definition JSString := list ascii.

(** String literals of the source, written [js "..."]. *)
Definition js (s : string) : JSString := list_ascii_of_string s.

Definition code (c : ascii) : Z := Z.of_N (N_of_ascii c).

Definition str_length (s : JSString) : Z := Z.of_nat (length s).

Fixpoint str_eqb (a b : JSString) : bool :=
  match a, b with
  | [], [] => true
  | x :: a', y :: b' => Ascii.eqb x y && str_eqb a' b'
  | _, _ => false
  end.

(** [s.padStart(n, "0")] and [s.padEnd(n, "0")] for a one-character
    filler [c]: nothing is added when [n] is at most the length. *)
Definition padStart (s : JSString) (n : Z) (c : ascii) : JSString :=
  repeat c (Z.to_nat (n - str_length s)) ++ s.

Definition padEnd (s : JSString) (n : Z) (c : ascii) : JSString :=
  s ++ repeat c (Z.to_nat (n - str_length s)).

(** A relative index of [slice]: negative counts from the end, and the
    result is clamped to [0 .. len]. *)
Definition slice_index (len i : Z) : Z :=
  if i <? 0 then Z.max (len + i) 0 else Z.min i len.

(** [s.slice(start, end)]; [end] is [None] when the argument is omitted. *)
Definition slice (s : JSString) (start : Z) (end_ : option Z) : JSString :=
  let len := str_length s in
  let from := slice_index len start in
  let to := match end_ with
            | None => len
            | Some e => slice_index len e
            end in
  firstn (Z.to_nat (Z.max (to - from) 0)) (skipn (Z.to_nat from) s).

Fixpoint dropWhile {A} (p : A -> bool) (l : list A) : list A :=
  match l with
  | [] => []
  | x :: t => if p x then dropWhile p t else l
  end.

Definition is_zero_char (c : ascii) : bool := Ascii.eqb c "0"%char.

(** [s.replace(/0+$/, "")]: the maximal run of zeros at the end goes. *)
Definition replace_trailing_zeros (s : JSString) : JSString :=
  rev (dropWhile is_zero_char (rev s)).

(** White space of [trim] among the code units below 256: TAB, LF, VT, FF,
    CR, SPACE and NO-BREAK SPACE. *)
Definition is_space (c : ascii) : bool :=
  let n := code c in
  ((9 <=? n) && (n <=? 13)) || (n =? 32) || (n =? 160).

Definition trim (s : JSString) : JSString :=
  rev (dropWhile is_space (rev (dropWhile is_space s))).

Definition no_space (s : JSString) : Prop :=
  forallb (fun c => negb (is_space c)) s = true.

Fixpoint startsWith (s prefix : JSString) : bool :=
  match prefix, s with
  | [], _ => true
  | p :: prefix', c :: s' => Ascii.eqb c p && startsWith s' prefix'
  | _ :: _, [] => false
  end.

(** [s.split(sep)] for a one-character separator. *)
Fixpoint split (sep : ascii) (s : JSString) : list JSString :=
  match s with
  | [] => [[]]
  | c :: t =>
      if Ascii.eqb c sep then [] :: split sep t
      else match split sep t with
           | h :: r => (c :: h) :: r
           | [] => [[c]]
           end
  end.

(** [toLowerCase] on code units below 256: A-Z and the Latin-1 capitals
    (all of 192..222 but the multiplication sign 215) move up by 32. *)
Definition is_upper (c : ascii) : bool :=
  let n := code c in
  ((65 <=? n) && (n <=? 90)) ||
  ((192 <=? n) && (n <=? 222) && negb (n =? 215)).

Definition lower_char (c : ascii) : ascii :=
  if is_upper c then ascii_of_N (Z.to_N (code c + 32)) else c.

Definition toLowerCase (s : JSString) : JSString := map lower_char s.

(** ** Decimal digits and BigInt conversions *)

Definition is_digit (c : ascii) : bool :=
  (48 <=? code c) && (code c <=? 57).

Definition digit_val (c : ascii) : Z := code c - 48.

Definition digit_char (d : Z) : ascii := ascii_of_N (Z.to_N (d + 48)).

(** The digits of a non-negative [n], most significant first, pushed in
    front of [acc]; [fuel] bounds the number of digits. *)
Fixpoint digits_from (fuel : nat) (n : Z) (acc : JSString) : JSString :=
  match fuel with
  | O => acc
  | S fuel' =>
      let acc' := digit_char (n mod 10) :: acc in
      if n <? 10 then acc' else digits_from fuel' (n / 10) acc'
  end.

Definition digits_of (n : Z) : JSString :=
  digits_from (S (Z.to_nat (Z.log2 n))) n [].

(** [raw.toString()] of a BigInt. *)
Definition toString (raw : Z) : JSString :=
  if raw <? 0 then "-"%char :: digits_of (- raw) else digits_of raw.

Definition digit_step (acc : Z) (c : ascii) : Z := 10 * acc + digit_val c.

Definition digits_value (s : JSString) : Z := fold_left digit_step s 0.

(** [BigInt(text)] on decimal digit strings (the only strings [parseUnits]
    passes to it); the empty string is [0n].  Any other text is a
    SyntaxError, [None]. *)
Definition BigInt (text : JSString) : option Z :=
  if forallb is_digit text then Some (digits_value text) else None.

(** ** Errors *)

Inductive error : Type :=
| InvalidAmount        (* "Invalid --airdrop amount: ..." *)
| PrecisionOverflow    (* "--airdrop has too many decimal places ..." *)
| NoEligibleHolders    (* "No eligible holders for airdrop after exclusions" *)
| MalformedResponse    (* "Missing data.objects in GraphQL response" *)
| MissingCoinAddress   (* "Missing required coin address: ..." *)
| MissingArgumentValue (flag : JSString)    (* "Missing value for <flag>" *)
| UnknownArgument (arg : JSString)          (* "Unknown argument: <arg>" *)
| ExcludeWithoutAirdrop (* "--exclude can only be used together with --airdrop" *)
| HttpError            (* "HTTP <status>", thrown by postGraphQL *)
| TypeError            (* a property read on undefined, or BigInt(undefined) *)
| SyntaxError.         (* BigInt of a text that is no integer *)

Inductive result (A : Type) : Type :=
| Ok (a : A)
| Err (e : error).
Arguments Ok {A} a.
Arguments Err {A} e.

Definition bind {A B} (r : result A) (k : A -> result B) : result B :=
  match r with
  | Ok a => k a
  | Err e => Err e
  end.


(** ** Unit Converter *)

(** [formatUnits], lines 194-203. *)
Definition formatUnits (raw : Z) (decimals : Z) : JSString :=
  if decimals <=? 0 then toString raw
  else
    let s := padStart (toString raw) (decimals + 1) "0"%char in
    let integerPart := slice s 0 (Some (- decimals)) in
    let fractionalPart := replace_trailing_zeros (slice s (- decimals) None) in
    match fractionalPart with
    | [] => integerPart
    | _ :: _ => integerPart ++ "."%char :: fractionalPart
    end.

(** [/^[0-9]+(?:\.[0-9]+)?$/.test(text)] *)
Definition amount_regex_test (text : JSString) : bool :=
  let rest := dropWhile is_digit text in
  negb (Nat.eqb (length rest) (length text)) &&
  match rest with
  | [] => true
  | c :: frac =>
      Ascii.eqb c "."%char &&
      match frac with
      | [] => false
      | _ :: _ => forallb is_digit frac
      end
  end.

(** [parseUnits], lines 205-221. *)
Definition parseUnits (amount : JSString) (decimals : Z) : result Z :=
  let text := trim amount in
  if negb (amount_regex_test text) then Err InvalidAmount
  else
    let parts := split "."%char text in
    let integerPart := nth 0 parts [] in
    let fractionPart := nth 1 parts [] in
    if str_length fractionPart >? decimals then Err PrecisionOverflow
    else
      let rawText :=
        integerPart ++
        (if decimals >? 0 then padEnd fractionPart decimals "0"%char else []) in
      match BigInt rawText with
      | Some v => Ok v
      | None => Err SyntaxError
      end.

(** The amount syntax: one or more digits, optionally followed by ['.']
    and one or more digits.  [AmountSyntax text ip fp] also names the
    integer part and the fractional part (empty when there is none). *)
Definition all_digits (s : JSString) : Prop := forallb is_digit s = true.

Inductive AmountSyntax : JSString -> JSString -> JSString -> Prop :=
| AmountWhole ip :
    ip <> [] -> all_digits ip -> AmountSyntax ip ip []
| AmountFraction ip fp :
    ip <> [] -> all_digits ip -> fp <> [] -> all_digits fp ->
    AmountSyntax (ip ++ "."%char :: fp) ip fp.

Definition matches_amount (text : JSString) : Prop :=
  exists ip fp, AmountSyntax text ip fp.

(** The same conversion, written from the words of the specification:
    left-pad with zeros to at least [decimals+1] digits, take all but the
    last [decimals] digits and the last [decimals] digits, strip the zeros
    at the end of the latter, join with ['.'] when something is left. *)
Definition left_pad_zeros (n : nat) (s : JSString) : JSString :=
  repeat "0"%char (n - length s) ++ s.

Definition last_digits (n : nat) (s : JSString) : JSString :=
  rev (firstn n (rev s)).

Definition all_but_last (n : nat) (s : JSString) : JSString :=
  rev (skipn n (rev s)).

Fixpoint strip_trailing_zeros (s : JSString) : JSString :=
  match s with
  | [] => []
  | c :: t =>
      match strip_trailing_zeros t with
      | [] => if is_zero_char c then [] else [c]
      | t' => c :: t'
      end
  end.

Definition toDisplay_spec (raw : Z) (decimals : Z) : JSString :=
  if decimals <=? 0 then toString raw
  else
    let d := Z.to_nat decimals in
    let padded := left_pad_zeros (S d) (toString raw) in
    let stripped := strip_trailing_zeros (last_digits d padded) in
    match stripped with
    | [] => all_but_last d padded
    | _ :: _ => all_but_last d padded ++ js "." ++ stripped
    end.

(** ** Map and Set *)

(** A [Map] from strings to BigInt: [set] on a present key keeps its
    place, on a new key appends. *)
Definition JSMap := list (JSString * Z).

Fixpoint map_get (k : JSString) (m : JSMap) : option Z :=
  match m with
  | [] => None
  | (k', v) :: t => if str_eqb k' k then Some v else map_get k t
  end.

Fixpoint map_set (k : JSString) (v : Z) (m : JSMap) : JSMap :=
  match m with
  | [] => [(k, v)]
  | (k', v') :: t =>
      if str_eqb k' k then (k', v) :: t else (k', v') :: map_set k v t
  end.

Definition map_keys (m : JSMap) : list JSString := map fst m.
Definition map_values (m : JSMap) : list Z := map snd m.

(** [x ?? d] *)
Definition nullish {A} (x : option A) (d : A) : A :=
  match x with
  | Some v => v
  | None => d
  end.

Definition sum (l : list Z) : Z := fold_right Z.add 0 l.

Definition JSSet := list JSString.

Definition set_has (k : JSString) (s : JSSet) : bool := existsb (str_eqb k) s.

Definition set_add (k : JSString) (s : JSSet) : JSSet :=
  if set_has k s then s else s ++ [k].

Definition set_size (s : JSSet) : Z := Z.of_nat (length s).

(** ** Command line *)

Record CliArgs := {
  coinAddress : JSString;
  airdropAmount : option JSString;      (* [None] is [null] *)
  excludedAddresses : JSSet
}.

Definition is_empty (s : JSString) : bool :=
  match s with
  | [] => true
  | _ :: _ => false
  end.

(** The inner loop of [--exclude]: every part of the comma-separated
    value, trimmed and lower-cased, is added unless empty. *)
Fixpoint add_excluded (parts : list JSString) (excluded : JSSet) : JSSet :=
  match parts with
  | [] => excluded
  | address :: rest =>
      let normalized := toLowerCase (trim address) in
      add_excluded rest
        (if is_empty normalized then excluded else set_add normalized excluded)
  end.

(** The [for] loop of [parseCliArgs] (lines 232-260) over [argv[1..]]; a flag consumes
    the argument after it.  [argv[i + 1]] past the end is [undefined],
    which [!value] rejects like the empty string. *)
Fixpoint parse_flags (args : list JSString) (airdropAmount : option JSString)
    (excluded : JSSet) : result (option JSString * JSSet) :=
  match args with
  | [] => Ok (airdropAmount, excluded)
  | arg :: rest =>
      if str_eqb arg (js "--airdrop") then
        match rest with
        | [] => Err (MissingArgumentValue (js "--airdrop"))
        | value :: rest' =>
            if is_empty value || startsWith value (js "--")
            then Err (MissingArgumentValue (js "--airdrop"))
            else parse_flags rest' (Some (trim value)) excluded
        end
      else if str_eqb arg (js "--exclude") then
        match rest with
        | [] => Err (MissingArgumentValue (js "--exclude"))
        | value :: rest' =>
            if is_empty value || startsWith value (js "--")
            then Err (MissingArgumentValue (js "--exclude"))
            else parse_flags rest' airdropAmount
                   (add_excluded (split ","%char value) excluded)
        end
      else Err (UnknownArgument arg)
  end.

(** [parseCliArgs], lines 223-267. *)
Definition parseCliArgs (argv : list JSString) : result CliArgs :=
  match argv with
  | [] => Err MissingCoinAddress
  | first :: rest =>
      let coinAddress := trim first in
      if is_empty coinAddress || startsWith coinAddress (js "--")
      then Err MissingCoinAddress
      else
        match parse_flags rest None [] with
        | Err e => Err e
        | Ok (airdropAmount, excludedAddresses) =>
            if (set_size excludedAddresses >? 0) &&
               match airdropAmount with None => true | Some _ => false end
            then Err ExcludeWithoutAirdrop
            else Ok {| coinAddress := coinAddress;
                       airdropAmount := airdropAmount;
                       excludedAddresses := excludedAddresses |}
        end
  end.

(** Whether [flag] occurs among the arguments after the coin address. *)
Definition passes_flag (flag : JSString) (argv : list JSString) : bool :=
  existsb (str_eqb flag) (tl argv).

(** ** Pagination Aggregator *)

Record PageInfo := {
  hasNextPage : bool;
  endCursor : option JSString
}.

(** The balance field of a node under [BigInt(...)]: an integer, a
    missing field or object on the path (TypeError), or a text that is no
    integer (SyntaxError). *)
Inductive BalanceField : Type :=
| BalanceValue (v : Z)
| BalanceMissing
| BalanceNotInteger.

(** A node of a page.  [owner_address] is [node.owner.address.address],
    [None] when the read throws (an owner without address);
    [balance] is [node.asMoveObject.contents.json.balance]. *)
Record Node := {
  owner_address : option JSString;
  balance : BalanceField
}.

Record Connection := {
  nodes : option (list Node);           (* [None]: no [nodes] property *)
  pageInfo : option PageInfo
}.

(** [payload?.data?.objects], [None] when absent. *)
Definition Payload := option Connection.

(** The [for] loop over the nodes of one page ([main], lines 299-303). *)
Fixpoint add_nodes (page : list Node) (balances : JSMap) : result JSMap :=
  match page with
  | [] => Ok balances
  | node :: rest =>
      match owner_address node with
      | None => Err TypeError
      | Some address =>
          match balance node with
          | BalanceMissing => Err TypeError
          | BalanceNotInteger => Err SyntaxError
          | BalanceValue rawBalance =>
              add_nodes rest
                (map_set address
                   (nullish (map_get address balances) 0 + rawBalance) balances)
          end
      end
  end.

(** One turn of the [while] loop after the fetch ([main], lines 294-309):
    the balances after the page and, when the loop goes on, the cursor of
    the next request. *)
Definition process_page (payload : Payload) (balances : JSMap)
    : result (JSMap * option (option JSString)) :=
  match payload with
  | None => Err MalformedResponse
  | Some connection =>
      match add_nodes (nullish (nodes connection) []) balances with
      | Err e => Err e
      | Ok balances' =>
          match pageInfo connection with
          | Some info =>
              if hasNextPage info then Ok (balances', Some (endCursor info))
              else Ok (balances', None)
          | None => Ok (balances', None)
          end
      end
  end.

Section Aggregator.

(** The endpoint: the answer to the objects query for a cursor, and the
    endpoint afterwards; [Err] when [postGraphQL] throws. *)
Variable Server : Type.
Variable postGraphQL : Server -> option JSString -> result (Payload * Server).

(** The [while (true)] loop ([main], lines 287-310); [None] when [fuel]
    requests were not enough to reach a page without successor. *)
Fixpoint aggregate (fuel : nat) (server : Server) (cursor : option JSString)
    (balances : JSMap) : option (result JSMap) :=
  match fuel with
  | O => None
  | S fuel' =>
      match postGraphQL server cursor with
      | Err e => Some (Err e)
      | Ok (payload, server') =>
          match process_page payload balances with
          | Err e => Some (Err e)
          | Ok (balances', None) => Some (Ok balances')
          | Ok (balances', Some cursor') =>
              aggregate fuel' server' cursor' balances'
          end
      end
  end.

(** The nodes of the pages the loop goes through, in order. *)
Fixpoint fetched_nodes (fuel : nat) (server : Server) (cursor : option JSString)
    : list Node :=
  match fuel with
  | O => []
  | S fuel' =>
      match postGraphQL server cursor with
      | Err _ => []
      | Ok (None, _) => []
      | Ok (Some connection, server') =>
          nullish (nodes connection) [] ++
          match pageInfo connection with
          | Some info =>
              if hasNextPage info
              then fetched_nodes fuel' server' (endCursor info)
              else []
          | None => []
          end
      end
  end.

End Aggregator.

(** The sum of the balances that the nodes of [page] carry for [owner]. *)
Definition owned_by (owner : JSString) (node : Node) : bool :=
  match owner_address node with
  | Some a => str_eqb a owner
  | None => false
  end.

Definition node_value (node : Node) : Z :=
  match balance node with
  | BalanceValue v => v
  | _ => 0
  end.

Definition node_total (owner : JSString) (page : list Node) : Z :=
  sum (map node_value (filter (owned_by owner) page)).

(** An endpoint that answers with the payloads of a list, in order. *)
Definition scripted (pages : list Payload) (cursor : option JSString)
    : result (Payload * list Payload) :=
  match pages with
  | [] => Err HttpError
  | p :: rest => Ok (p, rest)
  end.

Definition node_of (address : JSString) (raw : Z) : Node :=
  {| owner_address := Some address; balance := BalanceValue raw |}.

Definition entries_nodes (entries : list (JSString * Z)) : list Node :=
  map (fun e => node_of (fst e) (snd e)) entries.

(** A page with the given (owner, balance) entries; [next] is the cursor
    of the next page, [None] on the last page. *)
Definition page_of (entries : list (JSString * Z)) (next : option JSString) : Payload :=
  Some {| nodes := Some (entries_nodes entries);
          pageInfo := Some {| hasNextPage := match next with Some _ => true | None => false end;
                              endCursor := next |} |}.

(** The payloads of a run over the given pages of entries: all but the
    last announce a next page with cursor [c]. *)
Fixpoint script_of (c : JSString) (pages : list (list (JSString * Z)))
    : list Payload :=
  match pages with
  | [] => []
  | entries :: rest =>
      match rest with
      | [] => [page_of entries None]
      | _ :: _ => page_of entries (Some c) :: script_of c rest
      end
  end.

(** ** Holder rows *)

Record HolderRow := {
  address : JSString;
  rawBalance : Z
}.

(** The rows of [main], lines 312-317.  The comparator of [sort] puts the
    larger balance first and returns 0 on equal balances;
    [Array.prototype.sort] is stable. *)
Fixpoint insert_row (row : HolderRow) (sorted : list HolderRow) : list HolderRow :=
  match sorted with
  | [] => [row]
  | y :: t =>
      if rawBalance y >? rawBalance row then y :: insert_row row t
      else row :: sorted
  end.

Definition sort_rows (rows : list HolderRow) : list HolderRow :=
  fold_right insert_row [] rows.

Definition rows_of (balances : JSMap) : list HolderRow :=
  sort_rows (map (fun e => {| address := fst e; rawBalance := snd e |}) balances).

(** ** Allocation Engine *)

Definition is_excluded (excludedAddresses : JSSet) (row : HolderRow) : bool :=
  set_has (toLowerCase (address row)) excludedAddresses.

Definition eligible_rows (rows : list HolderRow) (excludedAddresses : JSSet)
    : list HolderRow :=
  filter (fun row => negb (is_excluded excludedAddresses row)) rows.

Definition eligible_total (rows : list HolderRow) (excludedAddresses : JSSet) : Z :=
  fold_left (fun acc row => acc + rawBalance row)
    (eligible_rows rows excludedAddresses) 0.

(** One turn of [for (const row of rows)] ([main], lines 337-346): the
    state is the map and [allocated]. *)
Definition allocate_row (totalAirdropRaw eligibleTotalRaw : Z)
    (excludedAddresses : JSSet) (state : JSMap * Z) (row : HolderRow) : JSMap * Z :=
  let (airdropRawByAddress, allocated) := state in
  if is_excluded excludedAddresses row then
    (map_set (address row) 0 airdropRawByAddress, allocated)
  else
    let share := Z.quot (totalAirdropRaw * rawBalance row) eligibleTotalRaw in
    (map_set (address row) share airdropRawByAddress, allocated + share).

(** The body of [if (airdropAmount !== null)] in [main] (lines 322-355),
    after [parseUnits]: the allocation map of the rows.  The last branch of
    the [match] is never taken, the test before it asks for an eligible
    row. *)
Definition allocate (rows : list HolderRow) (totalAirdropRaw : Z)
    (excludedAddresses : JSSet) : result JSMap :=
  let eligibleRows := eligible_rows rows excludedAddresses in
  let eligibleTotalRaw := eligible_total rows excludedAddresses in
  if eligibleTotalRaw =? 0 then Err NoEligibleHolders
  else
    let (airdropRawByAddress, allocated) :=
      fold_left (allocate_row totalAirdropRaw eligibleTotalRaw excludedAddresses)
        rows ([], 0) in
    let remainder := totalAirdropRaw - allocated in
    if (remainder >? 0) && (Z.of_nat (length eligibleRows) >? 0) then
      match eligibleRows with
      | first :: _ =>
          Ok (map_set (address first)
                (nullish (map_get (address first) airdropRawByAddress) 0 + remainder)
                airdropRawByAddress)
      | [] => Err TypeError
      end
    else Ok airdropRawByAddress.

Definition row_of (a : string) (raw : Z) : HolderRow :=
  {| address := js a; rawBalance := raw |}.

(** What the loop stores for a row: 0 for an excluded row, the truncated
    quotient otherwise. *)
Definition share_of (totalAirdropRaw eligibleTotalRaw : Z)
    (excludedAddresses : JSSet) (row : HolderRow) : Z :=
  if is_excluded excludedAddresses row then 0
  else Z.quot (totalAirdropRaw * rawBalance row) eligibleTotalRaw.

Definition entry_of (totalAirdropRaw eligibleTotalRaw : Z)
    (excludedAddresses : JSSet) (row : HolderRow) : JSString * Z :=
  (address row, share_of totalAirdropRaw eligibleTotalRaw excludedAddresses row).

(** The map part of one turn of the loop. *)
Definition set_share (totalAirdropRaw eligibleTotalRaw : Z)
    (excludedAddresses : JSSet) (m : JSMap) (row : HolderRow) : JSMap :=
  map_set (address row)
    (share_of totalAirdropRaw eligibleTotalRaw excludedAddresses row) m.

(** The sum of the raw balances of the eligible rows. *)
Definition eligible_sum (rows : list HolderRow) (excludedAddresses : JSSet) : Z :=
  sum (map rawBalance (eligible_rows rows excludedAddresses)).

(** The exclusion set as [parseCliArgs] builds it holds lower-cased
    addresses only. *)
Definition normalized (excludedAddresses : JSSet) : Prop :=
  Forall (fun e => toLowerCase e = e) excludedAddresses.

(** An address is in the excluded set up to letter case. *)
Definition excluded_ci (excludedAddresses : JSSet) (a : JSString) : Prop :=
  exists e, In e excludedAddresses /\ toLowerCase e = toLowerCase a.

(** A string without white space at its ends, as [trim] leaves it. *)
Definition trimmed (s : JSString) : Prop :=
  match s with
  | [] => True
  | c :: _ => is_space c = false
  end /\
  match rev s with
  | [] => True
  | c :: _ => is_space c = false
  end.

(** The two flags of the command line. *)
Definition is_flag (arg : JSString) : bool :=
  str_eqb arg (js "--airdrop") || str_eqb arg (js "--exclude").

(** A value that a flag accepts: not empty and not starting with [--]. *)
Definition flag_value (value : JSString) : bool :=
  negb (is_empty value || startsWith value (js "--")).

(** The final test and the result of [parseCliArgs], for a state of the
    flag loop. *)
Definition finish_cli (coinAddress : JSString)
    (state : option JSString * JSSet) : result CliArgs :=
  let (airdropAmount, excludedAddresses) := state in
  if (set_size excludedAddresses >? 0) &&
     match airdropAmount with None => true | Some _ => false end
  then Err ExcludeWithoutAirdrop
  else Ok {| coinAddress := coinAddress;
             airdropAmount := airdropAmount;
             excludedAddresses := excludedAddresses |}.

(** A node that the loop can add: it has an owner address and an integer
    balance. *)
Definition node_ok (node : Node) : bool :=
  match owner_address node, balance node with
  | Some _, BalanceValue _ => true
  | _, _ => false
  end.

(** What holds of every member of the exclusion set, and of the set. *)
Definition excluded_ok (s : JSSet) : Prop :=
  NoDup s /\ Forall (fun e => e <> [] /\ toLowerCase e = e /\ trim e = e) s.

(** An endpoint that answers every request with a page of one entry and
    announces a next page. *)
Definition endless (server : unit) (cursor : option JSString)
    : result (Payload * unit) :=
  Ok (page_of [(js "A", 1)] (Some (js "next")), tt).

(** The entry of the balance map that a row was made from. *)
Definition row_entry (row : HolderRow) : JSString * Z :=
  (address row, rawBalance row).

(** Rows in the order of the report: no balance is followed by a larger one. *)
Definition descending (a b : HolderRow) : Prop := rawBalance b <= rawBalance a.

(** The same holders with every balance multiplied by [k]. *)
Definition scale_row (k : Z) (row : HolderRow) : HolderRow :=
  {| address := address row; rawBalance := k * rawBalance row |}.

Definition scale_rows (k : Z) (rows : list HolderRow) : list HolderRow :=
  map (scale_row k) rows.

(** What the first eligible row gets on top of its share: the remainder
    when it is positive. *)
Definition bonus (first row : HolderRow) (remainder : Z) : Z :=
  if str_eqb (address first) (address row) then Z.max remainder 0 else 0.

(** ** Report Builder *)

Definition newline : ascii := "010"%char.

(** The first line, [main] lines 358-361. *)
Definition header (airdropRawByAddress : option JSMap) : JSString :=
  match airdropRawByAddress with
  | None => js "rank,address,balance"
  | Some _ => js "rank,address,balance,airdrop_amount"
  end.

(** The line pushed for [rows[i]], [main] lines 363-373.  The rank
    [i + 1] is a Number and prints in decimal. *)
Definition report_line (decimals : Z) (airdropRawByAddress : option JSMap)
    (i : nat) (row : HolderRow) : JSString :=
  let formattedBalance := formatUnits (rawBalance row) decimals in
  match airdropRawByAddress with
  | None =>
      toString (Z.of_nat i + 1) ++ ","%char :: address row
        ++ ","%char :: formattedBalance
  | Some m =>
      let airdropRaw := nullish (map_get (address row) m) 0 in
      let formattedAirdrop := formatUnits airdropRaw decimals in
      toString (Z.of_nat i + 1) ++ ","%char :: address row
        ++ ","%char :: formattedBalance ++ ","%char :: formattedAirdrop
  end.

(** The [for] loop over the rows, from index [i] on. *)
Fixpoint push_lines (decimals : Z) (airdropRawByAddress : option JSMap)
    (i : nat) (rows : list HolderRow) : list JSString :=
  match rows with
  | [] => []
  | row :: rest =>
      report_line decimals airdropRawByAddress i row
        :: push_lines decimals airdropRawByAddress (S i) rest
  end.

Definition report_lines (rows : list HolderRow) (decimals : Z)
    (airdropRawByAddress : option JSMap) : list JSString :=
  header airdropRawByAddress :: push_lines decimals airdropRawByAddress 0 rows.

(** [parts.join(sep)] *)
Fixpoint join (sep : JSString) (parts : list JSString) : JSString :=
  match parts with
  | [] => []
  | x :: rest =>
      match rest with
      | [] => x
      | _ :: _ => x ++ sep ++ join sep rest
      end
  end.

(** The text written to the file, [main] line 376. *)
Definition csv_text (lines : list JSString) : JSString :=
  join [newline] lines ++ [newline].

(** A string without the given character. *)
Definition without (c : ascii) (s : JSString) : Prop :=
  forallb (fun x => negb (Ascii.eqb x c)) s = true.

(** The characters that numbers print with are neither commas nor line
    breaks. *)
Definition plain (c : ascii) : bool :=
  negb (Ascii.eqb c ","%char) && negb (Ascii.eqb c newline).

(** ** The run *)

(** The airdrop step of [main], lines 319-356: no map without
    [--airdrop]; otherwise the amount is parsed and allocated. *)
Definition airdrop_step (cli : CliArgs) (decimals : Z) (rows : list HolderRow)
    : result (option JSMap) :=
  match airdropAmount cli with
  | None => Ok None
  | Some amount =>
      match parseUnits amount decimals with
      | Err e => Err e
      | Ok totalAirdropRaw =>
          match allocate rows totalAirdropRaw (excludedAddresses cli) with
          | Err e => Err e
          | Ok airdropRawByAddress => Ok (Some airdropRawByAddress)
          end
      end
  end.

(** [main] after the paging loop, lines 312-376: the text of the file. *)
Definition snapshot_csv (cli : CliArgs) (decimals : Z) (balances : JSMap)
    : result JSString :=
  let rows := rows_of balances in
  match airdrop_step cli decimals rows with
  | Err e => Err e
  | Ok airdropRawByAddress =>
      Ok (csv_text (report_lines rows decimals airdropRawByAddress))
  end.

(** The two requests of [main]. *)
Inductive Request : Type :=
| CoinMetadataQuery (coinType : JSString)
| SnapshotQuery (type : JSString) (first : Z) (after : option JSString).

(** [metadataPayload?.data?.coinMetadata?.decimals]: a number with an
    integer value, or anything else. *)
Inductive MetadataDecimals : Type :=
| DecimalsInteger (n : Z)
| DecimalsOther.

(** What [main] reads of a response. *)
Record Response := {
  coinMetadata_decimals : MetadataDecimals;
  data_objects : Payload
}.

(** [main] lines 279-282. *)
Definition decimals_of (metadataDecimals : MetadataDecimals) : Z :=
  match metadataDecimals with
  | DecimalsInteger n => n
  | DecimalsOther => 0
  end.

Section Main.

(** [postGraphQL] with its request: [None] when it throws. *)
Variable Server : Type.
Variable fetchGraphQL : Server -> Request -> option (Response * Server).

(** The request of the paging loop, [main] lines 288-294. *)
Definition postObjects (coinObjectType : JSString) (server : Server)
    (cursor : option JSString) : result (Payload * Server) :=
  match fetchGraphQL server (SnapshotQuery coinObjectType 50 cursor) with
  | None => Err HttpError
  | Some (response, server') => Ok (data_objects response, server')
  end.

(** [main], lines 269-378: the text it writes, or the error it dies of;
    [None] when [fuel] page requests were not enough. *)
Definition main (fuel : nat) (argv : list JSString) (server : Server)
    : option (result JSString) :=
  match parseCliArgs argv with
  | Err e => Some (Err e)
  | Ok cli =>
      let coinObjectType := js "0x2::coin::Coin<" ++ coinAddress cli ++ js ">" in
      match fetchGraphQL server (CoinMetadataQuery (coinAddress cli)) with
      | None => Some (Err HttpError)
      | Some (metadataPayload, server1) =>
          let decimals := decimals_of (coinMetadata_decimals metadataPayload) in
          match aggregate Server (postObjects coinObjectType) fuel server1 None [] with
          | None => None
          | Some (Err e) => Some (Err e)
          | Some (Ok balances) => Some (snapshot_csv cli decimals balances)
          end
      end
  end.

End Main.

(** An endpoint that answers with the responses of a list, in order, and
    throws when the list is used up. *)
Definition replay (responses : list Response) (request : Request)
    : option (Response * list Response) :=
  match responses with
  | [] => None
  | r :: rest => Some (r, rest)
  end.

(** ** The first version of the script *)

(** The formatting that the first [main] does in place, lines 115-123. *)
Definition format_v1 (raw : Z) (decimals : Z) : JSString :=
  if decimals <=? 0 then toString raw
  else
    let s := padStart (toString raw) (decimals + 1) "0"%char in
    let integerPart := slice s 0 (Some (- decimals)) in
    let fractionalPart := replace_trailing_zeros (slice s (- decimals) None) in
    match fractionalPart with
    | [] => integerPart
    | _ :: _ => integerPart ++ "."%char :: fractionalPart
    end.

(** The loop that pushes the lines, lines 111-126, from index [i] on. *)
Fixpoint push_lines_v1 (decimals : Z) (i : nat) (rows : list HolderRow)
    : list JSString :=
  match rows with
  | [] => []
  | row :: rest =>
      (toString (Z.of_nat i + 1) ++ ","%char :: address row
         ++ ","%char :: format_v1 (rawBalance row) decimals)
        :: push_lines_v1 decimals (S i) rest
  end.

(** How a run of the first version ends: with the error of a command
    line that is not exactly one non-empty argument, or like a run of the
    second version. *)
Inductive Outcome_v1 : Type :=
| ExpectedOneArgument
| Finished (r : result JSString).

Section MainV1.

Variable Server : Type.
Variable fetchGraphQL : Server -> Request -> option (Response * Server).

(** The first [main], lines 59-130; [argv] is [process.argv] without its
    first two entries, so [process.argv.length !== 3] says that [argv]
    does not have exactly one entry.  Its requests, its paging loop
    (lines 75-101) and its sort (lines 103-108) are those of the second
    version, line for line. *)
Definition main_v1 (fuel : nat) (argv : list JSString) (server : Server)
    : option Outcome_v1 :=
  match argv with
  | [first] =>
      let coinAddress := trim first in
      if is_empty coinAddress then Some ExpectedOneArgument
      else
        let coinObjectType := js "0x2::coin::Coin<" ++ coinAddress ++ js ">" in
        match fetchGraphQL server (CoinMetadataQuery coinAddress) with
        | None => Some (Finished (Err HttpError))
        | Some (metadataPayload, server1) =>
            let decimals := decimals_of (coinMetadata_decimals metadataPayload) in
            match aggregate Server (postObjects Server fetchGraphQL coinObjectType)
                    fuel server1 None [] with
            | None => None
            | Some (Err e) => Some (Finished (Err e))
            | Some (Ok balances) =>
                let rows := rows_of balances in
                let lines :=
                  js "rank,address,balance" :: push_lines_v1 decimals 0 rows in
                Some (Finished (Ok (join [newline] lines ++ [newline])))
            end
        end
  | _ => Some ExpectedOneArgument
  end.

End MainV1.

(** Sample rows: one excluded holder in front of three equal ones. *)
Definition witness_rows : list HolderRow :=
  [row_of "X" 5; row_of "A" 100; row_of "B" 100; row_of "C" 100].

(** * Properties *)

(** ** Examples *)

Example formatUnits_ex1 : formatUnits 1000000 6 = js "1".
Proof. reflexivity. Qed.
Example formatUnits_ex2 : formatUnits 1500000 6 = js "1.5".
Proof. reflexivity. Qed.
Example formatUnits_ex3 : formatUnits 0 6 = js "0".
Proof. reflexivity. Qed.
Example formatUnits_ex4 : formatUnits 1234 6 = js "0.001234".
Proof. reflexivity. Qed.
Example parseUnits_ex1 : parseUnits (js "1.2345") 2 = Err PrecisionOverflow.
Proof. reflexivity. Qed.
Example parseUnits_ex2 : parseUnits (js "1.5") 6 = Ok 1500000.
Proof. reflexivity. Qed.
Example parseUnits_ex3 : parseUnits (js " 12 ") 0 = Ok 12.
Proof. reflexivity. Qed.
Example parseUnits_ex4 : parseUnits (js "1.") 2 = Err InvalidAmount.
Proof. reflexivity. Qed.

(** ** Characters and digits *)

Lemma code_range (c : ascii) : 0 <= code c < 256.
Proof.
  unfold code. pose proof (N_ascii_bounded c) as H. lia.
Qed.

Lemma digit_char_code (d : Z) : 0 <= d < 10 -> code (digit_char d) = d + 48.
Proof.
  intros H. unfold code, digit_char.
  rewrite N_ascii_embedding; lia.
Qed.

Lemma digit_val_char (d : Z) : 0 <= d < 10 -> digit_val (digit_char d) = d.
Proof.
  intros H. unfold digit_val. rewrite digit_char_code; lia.
Qed.

Lemma is_digit_char (d : Z) : 0 <= d < 10 -> is_digit (digit_char d) = true.
Proof.
  intros H. unfold is_digit. rewrite digit_char_code by assumption.
  apply andb_true_intro; split; apply Z.leb_le; lia.
Qed.

Lemma is_digit_zero_char (c : ascii) : is_zero_char c = true -> is_digit c = true.
Proof.
  unfold is_zero_char. intros H. apply Ascii.eqb_eq in H. subst c. reflexivity.
Qed.

Lemma digit_val_zero_char (c : ascii) : is_zero_char c = true -> digit_val c = 0.
Proof.
  unfold is_zero_char. intros H. apply Ascii.eqb_eq in H. subst c. reflexivity.
Qed.

Lemma is_digit_not_space (c : ascii) : is_digit c = true -> is_space c = false.
Proof.
  unfold is_digit, is_space. intros H.
  apply andb_prop in H. destruct H as [H1 H2].
  apply Z.leb_le in H1. apply Z.leb_le in H2.
  repeat (apply orb_false_intro);
    try (apply andb_false_intro2); try (apply Z.leb_gt); try (apply Z.eqb_neq); lia.
Qed.

Lemma is_digit_not_dot (c : ascii) : is_digit c = true -> Ascii.eqb c "."%char = false.
Proof.
  intros H. destruct (Ascii.eqb c "."%char) eqn:E; [|reflexivity].
  apply Ascii.eqb_eq in E. subst c. discriminate H.
Qed.

(** ** [toString] and [BigInt] are inverse on non-negative integers *)

Lemma digits_value_fold (s : JSString) : digits_value s = fold_left digit_step s 0.
Proof. reflexivity. Qed.

Lemma digits_from_value (fuel : nat) :
  forall n acc, 0 <= n < 2 ^ Z.of_nat fuel ->
    fold_left digit_step (digits_from fuel n acc) 0 = fold_left digit_step acc n.
Proof.
  induction fuel as [|fuel IH]; intros n acc Hn.
  - simpl in *. replace n with 0 by lia. reflexivity.
  - cbn [digits_from]. destruct (n <? 10) eqn:E.
    + apply Z.ltb_lt in E. cbn [fold_left]. unfold digit_step at 2.
      rewrite Z.mod_small by lia. rewrite digit_val_char by lia.
      f_equal.
    + apply Z.ltb_ge in E. rewrite IH.
      * cbn [fold_left]. unfold digit_step at 2.
        rewrite digit_val_char by (apply Z.mod_pos_bound; lia).
        f_equal. pose proof (Z.div_mod n 10). lia.
      * rewrite Nat2Z.inj_succ, Z.pow_succ_r in Hn by lia.
        split; [apply Z.div_pos; lia|].
        apply Z.div_lt_upper_bound; lia.
Qed.

Lemma digits_from_is_digit (fuel : nat) :
  forall n acc, forallb is_digit (digits_from fuel n acc) = forallb is_digit acc.
Proof.
  induction fuel as [|fuel IH]; intros n acc; [reflexivity|].
  cbn [digits_from].
  assert (Hd : is_digit (digit_char (n mod 10)) = true)
    by (apply is_digit_char, Z.mod_pos_bound; lia).
  destruct (n <? 10).
  - cbn [forallb]. rewrite Hd. reflexivity.
  - rewrite IH. cbn [forallb]. rewrite Hd. reflexivity.
Qed.

Lemma digits_from_nonempty (fuel : nat) :
  forall n acc, digits_from (S fuel) n acc <> [].
Proof.
  induction fuel as [|fuel IH]; intros n acc.
  - cbn. destruct (n <? 10); discriminate.
  - cbn [digits_from]. destruct (n <? 10); [discriminate|].
    apply (IH (n / 10)).
Qed.

Lemma log2_fuel (n : Z) : 0 <= n -> n < 2 ^ Z.of_nat (S (Z.to_nat (Z.log2 n))).
Proof.
  intros Hn. rewrite Nat2Z.inj_succ, Z2Nat.id by apply Z.log2_nonneg.
  destruct (Z.eq_dec n 0) as [->|Hz]; [reflexivity|].
  apply Z.log2_spec. lia.
Qed.

Lemma digits_of_value (n : Z) : 0 <= n -> digits_value (digits_of n) = n.
Proof.
  intros Hn. rewrite digits_value_fold. unfold digits_of.
  rewrite digits_from_value; [reflexivity|].
  split; [assumption|]. apply log2_fuel; assumption.
Qed.

Lemma digits_of_is_digit (n : Z) : forallb is_digit (digits_of n) = true.
Proof. unfold digits_of. rewrite digits_from_is_digit. reflexivity. Qed.

Lemma digits_of_nonempty (n : Z) : digits_of n <> [].
Proof. apply digits_from_nonempty. Qed.

Lemma toString_nonneg (raw : Z) : 0 <= raw -> toString raw = digits_of raw.
Proof.
  intros H. unfold toString. destruct (raw <? 0) eqn:E; [|reflexivity].
  apply Z.ltb_lt in E. lia.
Qed.

Lemma BigInt_toString (raw : Z) : 0 <= raw -> BigInt (toString raw) = Some raw.
Proof.
  intros H. rewrite toString_nonneg by assumption. unfold BigInt.
  rewrite digits_of_is_digit, digits_of_value by assumption. reflexivity.
Qed.

(** ** String helpers *)

Lemma dropWhile_split {A} (p : A -> bool) (l : list A) :
  exists pre, l = pre ++ dropWhile p l /\ forallb p pre = true.
Proof.
  induction l as [|x t IH].
  - exists []. split; reflexivity.
  - cbn [dropWhile]. destruct (p x) eqn:E.
    + destruct IH as [pre [H1 H2]]. exists (x :: pre). split.
      * cbn. f_equal. exact H1.
      * cbn. rewrite E. exact H2.
    + exists []. split; reflexivity.
Qed.

Lemma dropWhile_head {A} (p : A -> bool) (l : list A) x t :
  dropWhile p l = x :: t -> p x = false.
Proof.
  induction l as [|y l IH]; cbn; [discriminate|].
  destruct (p y) eqn:E; [exact IH|].
  intros H. injection H as -> _. exact E.
Qed.

Lemma dropWhile_all {A} (p : A -> bool) (l : list A) :
  forallb p l = true -> dropWhile p l = [].
Proof.
  induction l as [|x t IH]; cbn; [reflexivity|].
  intros H. apply andb_prop in H. destruct H as [H1 H2].
  rewrite H1. apply IH, H2.
Qed.

Lemma dropWhile_app_stop {A} (p : A -> bool) (pre : list A) x t :
  forallb p pre = true -> p x = false -> dropWhile p (pre ++ x :: t) = x :: t.
Proof.
  induction pre as [|y pre IH]; cbn; intros H Hx.
  - rewrite Hx. reflexivity.
  - apply andb_prop in H. destruct H as [H1 H2]. rewrite H1. apply IH; assumption.
Qed.

Lemma dropWhile_none {A} (p : A -> bool) (l : list A) :
  match l with [] => True | x :: _ => p x = false end -> dropWhile p l = l.
Proof.
  destruct l as [|x t]; cbn; [reflexivity|]. intros ->. reflexivity.
Qed.

Lemma forallb_zero_repeat (s : JSString) :
  forallb is_zero_char s = true -> s = repeat "0"%char (length s).
Proof.
  induction s as [|c t IH]; cbn; [reflexivity|].
  intros H. apply andb_prop in H. destruct H as [H1 H2].
  apply Ascii.eqb_eq in H1. subst c. f_equal. apply IH, H2.
Qed.

Lemma repeat_snoc {A} (x : A) (n : nat) : repeat x n ++ [x] = x :: repeat x n.
Proof.
  induction n as [|n IH]; cbn; [reflexivity|]. rewrite IH. reflexivity.
Qed.

Lemma rev_repeat {A} (x : A) (n : nat) : rev (repeat x n) = repeat x n.
Proof.
  induction n as [|n IH]; cbn; [reflexivity|].
  rewrite IH. apply repeat_snoc.
Qed.

(** Stripping the zeros at the end only removes zeros at the end. *)
Lemma replace_trailing_zeros_split (s : JSString) :
  exists k, s = replace_trailing_zeros s ++ repeat "0"%char k.
Proof.
  unfold replace_trailing_zeros.
  destruct (dropWhile_split is_zero_char (rev s)) as [pre [H1 H2]].
  exists (length pre).
  apply (f_equal (@rev ascii)) in H1. rewrite rev_involutive, rev_app_distr in H1.
  rewrite H1 at 1. f_equal.
  rewrite (forallb_zero_repeat pre H2) at 1. apply rev_repeat.
Qed.

Lemma replace_trailing_zeros_last (s : JSString) :
  match rev (replace_trailing_zeros s) with
  | [] => True
  | c :: _ => is_zero_char c = false
  end.
Proof.
  unfold replace_trailing_zeros. rewrite rev_involutive.
  destruct (dropWhile is_zero_char (rev s)) as [|c t] eqn:E; [exact I|].
  eapply dropWhile_head, E.
Qed.

Lemma forallb_app_true {A} (p : A -> bool) (a b : list A) :
  forallb p (a ++ b) = true <-> forallb p a = true /\ forallb p b = true.
Proof. rewrite forallb_app. apply andb_true_iff. Qed.

Lemma forallb_rev {A} (p : A -> bool) (l : list A) :
  forallb p (rev l) = forallb p l.
Proof.
  induction l as [|x t IH]; [reflexivity|].
  cbn. rewrite forallb_app, IH. cbn. rewrite andb_true_r. apply andb_comm.
Qed.

Lemma digits_value_zeros (k : nat) (s : JSString) :
  digits_value (repeat "0"%char k ++ s) = digits_value s.
Proof.
  rewrite !digits_value_fold, fold_left_app. f_equal.
  induction k as [|k IH]; [reflexivity|].
  cbn [repeat fold_left]. change (digit_step 0 "0"%char) with 0. exact IH.
Qed.

Lemma is_digit_zeros (k : nat) : forallb is_digit (repeat "0"%char k) = true.
Proof. induction k as [|k IH]; [reflexivity|]. cbn. exact IH. Qed.

(** ** [slice] on the padded string of [formatUnits] *)

Lemma slice_integer_part (s : JSString) (d : Z) :
  0 < d -> d <= str_length s ->
  slice s 0 (Some (- d)) = firstn (length s - Z.to_nat d) s.
Proof.
  unfold slice, slice_index, str_length. intros Hd Hl. cbn [Z.ltb Z.compare].
  destruct (- d <? 0) eqn:E; [|apply Z.ltb_ge in E; lia].
  rewrite Z.min_l by lia. cbn [Z.to_nat skipn].
  f_equal. lia.
Qed.

Lemma slice_fraction_part (s : JSString) (d : Z) :
  0 < d -> d <= str_length s ->
  slice s (- d) None = skipn (length s - Z.to_nat d) s.
Proof.
  unfold slice, slice_index, str_length. intros Hd Hl.
  destruct (- d <? 0) eqn:E; [|apply Z.ltb_ge in E; lia].
  replace (Z.to_nat (Z.max (Z.of_nat (length s) + - d) 0))
    with (length s - Z.to_nat d)%nat by lia.
  apply firstn_all2. rewrite length_skipn. lia.
Qed.

Lemma padStart_length (s : JSString) (n : Z) (c : ascii) :
  n <= str_length (padStart s n c).
Proof.
  unfold padStart, str_length. rewrite length_app, repeat_length. lia.
Qed.

(** ** [trim], [split] and the amount pattern *)

Lemma trim_no_space (s : JSString) : no_space s -> trim s = s.
Proof.
  unfold no_space, trim. intros H.
  rewrite (dropWhile_none is_space s).
  - rewrite dropWhile_none; [apply rev_involutive|].
    rewrite <- forallb_rev in H.
    destruct (rev s) as [|c t]; [exact I|].
    cbn in H. apply andb_prop in H. destruct H as [H _].
    apply negb_true_iff, H.
  - destruct s as [|c t]; [exact I|].
    cbn in H. apply andb_prop in H. destruct H as [H _].
    apply negb_true_iff, H.
Qed.

Lemma split_no_sep (sep : ascii) (s : JSString) :
  forallb (fun c => negb (Ascii.eqb c sep)) s = true -> split sep s = [s].
Proof.
  induction s as [|c t IH]; cbn; [reflexivity|].
  intros H. apply andb_prop in H. destruct H as [H1 H2].
  apply negb_true_iff in H1. rewrite H1, (IH H2). reflexivity.
Qed.

Lemma split_at_sep (sep : ascii) (a b : JSString) :
  forallb (fun c => negb (Ascii.eqb c sep)) a = true ->
  split sep (a ++ sep :: b) = a :: split sep b.
Proof.
  induction a as [|c t IH]; cbn [app split forallb]; intros H.
  - rewrite Ascii.eqb_refl. reflexivity.
  - apply andb_prop in H. destruct H as [H1 H2].
    apply negb_true_iff in H1. rewrite H1, (IH H2). reflexivity.
Qed.

Lemma digits_no_dot (s : JSString) :
  forallb is_digit s = true ->
  forallb (fun c => negb (Ascii.eqb c "."%char)) s = true.
Proof.
  intros H. rewrite forallb_forall in *. intros c Hc.
  rewrite is_digit_not_dot; [reflexivity|]. apply H, Hc.
Qed.

Lemma digits_no_space (s : JSString) : forallb is_digit s = true -> no_space s.
Proof.
  unfold no_space. intros H. rewrite forallb_forall in *. intros c Hc.
  rewrite is_digit_not_space; [reflexivity|]. apply H, Hc.
Qed.

Lemma amount_regex_complete text ip fp :
  AmountSyntax text ip fp -> amount_regex_test text = true.
Proof.
  intros H. destruct H as [ip Hne Hd | ip fp Hne Hd Hfne Hfd]; unfold amount_regex_test.
  - rewrite (dropWhile_all _ _ Hd). destruct ip; [contradiction|reflexivity].
  - rewrite (dropWhile_app_stop is_digit ip "."%char fp Hd eq_refl).
    apply andb_true_intro; split.
    + apply negb_true_iff, Nat.eqb_neq. rewrite length_app.
      destruct ip; [contradiction|]. cbn. lia.
    + cbn. destruct fp; [contradiction|]. exact Hfd.
Qed.

Lemma amount_regex_sound text :
  amount_regex_test text = true -> matches_amount text.
Proof.
  unfold amount_regex_test. intros H. apply andb_prop in H. destruct H as [Hlen Hrest].
  destruct (dropWhile_split is_digit text) as [pre [Hsplit Hpre]].
  apply negb_true_iff, Nat.eqb_neq in Hlen.
  assert (Hne : pre <> []).
  { intros ->. apply Hlen. rewrite Hsplit at 2. reflexivity. }
  destruct (dropWhile is_digit text) as [|c frac].
  - rewrite app_nil_r in Hsplit. subst text.
    exists pre, []. constructor; assumption.
  - apply andb_prop in Hrest. destruct Hrest as [Hc Hfrac].
    apply Ascii.eqb_eq in Hc. subst c.
    destruct frac as [|f frac]; [discriminate|].
    subst text. exists pre, (f :: frac).
    constructor; try assumption. discriminate.
Qed.

Lemma amount_split text ip fp :
  AmountSyntax text ip fp ->
  nth 0 (split "."%char text) [] = ip /\ nth 1 (split "."%char text) [] = fp.
Proof.
  intros H. destruct H as [ip Hne Hd | ip fp Hne Hd Hfne Hfd].
  - rewrite split_no_sep by (apply digits_no_dot, Hd). split; reflexivity.
  - rewrite split_at_sep by (apply digits_no_dot, Hd).
    rewrite split_no_sep by (apply digits_no_dot, Hfd). split; reflexivity.
Qed.

Lemma amount_parts_digits text ip fp :
  AmountSyntax text ip fp -> all_digits ip /\ all_digits fp.
Proof.
  intros H. destruct H; split; try assumption; reflexivity.
Qed.

Lemma amount_no_space text ip fp : AmountSyntax text ip fp -> no_space text.
Proof.
  intros H. destruct H as [ip Hne Hd | ip fp Hne Hd Hfne Hfd].
  - apply digits_no_space, Hd.
  - unfold no_space. apply forallb_app_true. split.
    + apply digits_no_space, Hd.
    + cbn. apply digits_no_space, Hfd.
Qed.

(** What [parseUnits] returns on a text of the amount syntax. *)
Lemma parseUnits_syntax amount decimals ip fp :
  AmountSyntax (trim amount) ip fp ->
  parseUnits amount decimals =
    if str_length fp >? decimals then Err PrecisionOverflow
    else Ok (digits_value
               (ip ++ if decimals >? 0 then padEnd fp decimals "0"%char else [])).
Proof.
  intros H. unfold parseUnits.
  rewrite (amount_regex_complete _ _ _ H). cbn [negb].
  destruct (amount_split _ _ _ H) as [-> ->].
  destruct (str_length fp >? decimals); [reflexivity|].
  destruct (amount_parts_digits _ _ _ H) as [Hd Hfd].
  unfold BigInt.
  replace (forallb is_digit _) with true; [reflexivity|].
  symmetry. apply forallb_app_true. split; [exact Hd|].
  destruct (decimals >? 0); [|reflexivity].
  unfold padEnd. apply forallb_app_true. split; [exact Hfd|apply is_digit_zeros].
Qed.

Lemma parseUnits_no_match amount decimals :
  amount_regex_test (trim amount) = false ->
  parseUnits amount decimals = Err InvalidAmount.
Proof. intros H. unfold parseUnits. rewrite H. reflexivity. Qed.

(** Padding the stripped fractional digits back to their old length
    restores them. *)
Lemma padEnd_replace_trailing_zeros (s : JSString) :
  padEnd (replace_trailing_zeros s) (str_length s) "0"%char = s.
Proof.
  destruct (replace_trailing_zeros_split s) as [k Hk].
  assert (Hlen : length s = (length (replace_trailing_zeros s) + k)%nat).
  { rewrite Hk at 1. rewrite length_app, repeat_length. reflexivity. }
  unfold padEnd, str_length.
  replace (Z.to_nat _) with k by lia.
  symmetry. exact Hk.
Qed.

Lemma replace_trailing_zeros_digits (s : JSString) :
  all_digits s -> all_digits (replace_trailing_zeros s).
Proof.
  unfold all_digits. intros H.
  destruct (replace_trailing_zeros_split s) as [k Hk].
  rewrite Hk in H. apply forallb_app_true in H. apply H.
Qed.

Lemma replace_trailing_zeros_length (s : JSString) :
  str_length (replace_trailing_zeros s) <= str_length s.
Proof.
  destruct (replace_trailing_zeros_split s) as [k Hk].
  apply (f_equal (@length ascii)) in Hk. rewrite length_app in Hk.
  unfold str_length. lia.
Qed.

(** ** Unit Converter: [formatUnits] against the specification *)

Lemma dropWhile_snoc {A} (p : A -> bool) (l : list A) (c : A) :
  dropWhile p (l ++ [c]) =
    match dropWhile p l with
    | [] => if p c then [] else [c]
    | r => r ++ [c]
    end.
Proof.
  induction l as [|x l IH]; cbn [app dropWhile].
  - destruct (p c); reflexivity.
  - destruct (p x); [exact IH|reflexivity].
Qed.

Lemma replace_trailing_zeros_strip (s : JSString) :
  replace_trailing_zeros s = strip_trailing_zeros s.
Proof.
  unfold replace_trailing_zeros.
  induction s as [|c t IH]; [reflexivity|].
  cbn [rev strip_trailing_zeros]. rewrite dropWhile_snoc, <- IH.
  destruct (dropWhile is_zero_char (rev t)) as [|x r].
  - cbn [rev]. destruct (is_zero_char c); reflexivity.
  - rewrite rev_app_distr. cbn [rev app].
    destruct (rev r ++ [x]) as [|y q] eqn:E; [|reflexivity].
    destruct (rev r); discriminate E.
Qed.

Lemma padStart_left_pad (s : JSString) (d : Z) :
  0 < d -> padStart s (d + 1) "0"%char = left_pad_zeros (S (Z.to_nat d)) s.
Proof.
  intros Hd. unfold padStart, left_pad_zeros, str_length. do 2 f_equal. lia.
Qed.

Lemma all_but_last_firstn (n : nat) (s : JSString) :
  all_but_last n s = firstn (length s - n) s.
Proof. unfold all_but_last. rewrite skipn_rev, rev_involutive. reflexivity. Qed.

Lemma last_digits_skipn (n : nat) (s : JSString) :
  last_digits n s = skipn (length s - n) s.
Proof. unfold last_digits. rewrite firstn_rev, rev_involutive. reflexivity. Qed.

Lemma formatUnits_refines (raw decimals : Z) :
  formatUnits raw decimals = toDisplay_spec raw decimals.
Proof.
  unfold formatUnits, toDisplay_spec.
  destruct (decimals <=? 0) eqn:E; [reflexivity|].
  apply Z.leb_gt in E.
  assert (Hlen : decimals <= str_length (padStart (toString raw) (decimals + 1) "0"%char)).
  { pose proof (padStart_length (toString raw) (decimals + 1) "0"%char). lia. }
  cbv zeta.
  rewrite slice_integer_part, slice_fraction_part by assumption.
  rewrite replace_trailing_zeros_strip, padStart_left_pad by assumption.
  rewrite all_but_last_firstn, last_digits_skipn. reflexivity.
Qed.

(** C7. [formatUnits] (the Unit Converter's toDisplay) computes what the
    specification describes: for [decimals <= 0] the decimal string of the
    integer; otherwise the string left-padded with zeros to [decimals+1]
    digits, cut into all but the last [decimals] digits and the last
    [decimals] digits, the latter stripped of the zeros at its end and
    joined with ['.'] only when something is left.  With 6 decimals,
    1000000 is "1", 1500000 is "1.5" and 0 is "0". *)
Theorem formatUnits_formatting :
  (forall raw decimals : Z, formatUnits raw decimals = toDisplay_spec raw decimals) /\
  (forall raw decimals : Z, decimals <= 0 -> formatUnits raw decimals = toString raw) /\
  formatUnits 1000000 6 = js "1" /\
  formatUnits 1500000 6 = js "1.5" /\
  formatUnits 0 6 = js "0".
Proof.
  split; [exact formatUnits_refines|].
  split; [|repeat split; reflexivity].
  intros raw decimals H. unfold formatUnits.
  destruct (decimals <=? 0) eqn:E; [reflexivity|]. apply Z.leb_gt in E. lia.
Qed.

Lemma formatUnits_formatting_witness :
  formatUnits 42 (-1) = js "42" /\ formatUnits 1234 6 = toDisplay_spec 1234 6.
Proof.
  split.
  - rewrite (proj1 (proj2 formatUnits_formatting) 42 (-1)); [reflexivity|lia].
  - apply (proj1 formatUnits_formatting).
Defined.

(** ** Unit Converter: [parseUnits] *)

Lemma parseUnits_invalid_iff amount decimals :
  parseUnits amount decimals = Err InvalidAmount <-> ~ matches_amount (trim amount).
Proof.
  split.
  - intros H [ip [fp Hs]]. rewrite (parseUnits_syntax _ decimals _ _ Hs) in H.
    destruct (str_length fp >? decimals); discriminate H.
  - intros H. apply parseUnits_no_match.
    destruct (amount_regex_test (trim amount)) eqn:E; [|reflexivity].
    exfalso. apply H, amount_regex_sound, E.
Qed.

Lemma parseUnits_overflow amount decimals ip fp :
  AmountSyntax (trim amount) ip fp -> decimals < str_length fp ->
  parseUnits amount decimals = Err PrecisionOverflow.
Proof.
  intros Hs H. rewrite (parseUnits_syntax _ decimals _ _ Hs).
  destruct (str_length fp >? decimals) eqn:E; [reflexivity|].
  rewrite Z.gtb_ltb in E. apply Z.ltb_ge in E. lia.
Qed.

Lemma parseUnits_padded amount decimals ip fp :
  AmountSyntax (trim amount) ip fp -> str_length fp <= decimals ->
  parseUnits amount decimals = Ok (digits_value (ip ++ padEnd fp decimals "0"%char)).
Proof.
  intros Hs H. rewrite (parseUnits_syntax _ decimals _ _ Hs).
  destruct (str_length fp >? decimals) eqn:E.
  - rewrite Z.gtb_ltb in E. apply Z.ltb_lt in E. lia.
  - destruct (decimals >? 0) eqn:E0; [reflexivity|].
    rewrite Z.gtb_ltb in E0. apply Z.ltb_ge in E0.
    assert (Hfp : fp = []).
    { destruct fp; [reflexivity|]. unfold str_length in H. cbn [length] in H. lia. }
    subst fp. unfold padEnd, str_length. cbn [length].
    replace (Z.to_nat (decimals - Z.of_nat 0)) with O by lia. reflexivity.
Qed.

(** C5, as the code has it.  [parseUnits] (toRaw) trims its input first.
    It fails with InvalidAmount exactly when the trimmed text is not of
    the amount syntax; on a text with integer part [ip] and fractional
    part [fp] it fails with PrecisionOverflow when [fp] has more than
    [decimals] digits, and otherwise returns the integer written by [ip]
    followed by [fp] right-padded with zeros to [decimals] digits. *)
Theorem parseUnits_errors (amount : JSString) (decimals : Z) :
  (parseUnits amount decimals = Err InvalidAmount <->
     ~ matches_amount (trim amount)) /\
  (forall ip fp, AmountSyntax (trim amount) ip fp ->
     (decimals < str_length fp ->
        parseUnits amount decimals = Err PrecisionOverflow) /\
     (str_length fp <= decimals ->
        parseUnits amount decimals =
          Ok (digits_value (ip ++ padEnd fp decimals "0"%char)))).
Proof.
  split; [apply parseUnits_invalid_iff|].
  intros ip fp Hs. split.
  - apply (parseUnits_overflow _ _ ip fp Hs).
  - apply (parseUnits_padded _ _ ip fp Hs).
Qed.

Lemma parseUnits_errors_witness :
  parseUnits (js "1.2345") 2 = Err PrecisionOverflow /\
  parseUnits (js " 1.5 ") 3 = Ok 1500.
Proof.
  split.
  - apply (proj2 (parseUnits_errors (js "1.2345") 2) (js "1") (js "2345")).
    + apply (AmountFraction (js "1") (js "2345")); [discriminate|reflexivity|discriminate|reflexivity].
    + reflexivity.
  - apply (proj2 (parseUnits_errors (js " 1.5 ") 3) (js "1") (js "5")).
    + apply (AmountFraction (js "1") (js "5")); [discriminate|reflexivity|discriminate|reflexivity].
    + discriminate.
Defined.

(** C5 as stated fails: [" 1"] is not of the amount syntax, yet
    [parseUnits] accepts it, because it trims before matching. *)
Lemma parseUnits_untrimmed_counterexample :
  ~ matches_amount (js " 1") /\
  parseUnits (js " 1") 0 = Ok 1 /\
  ~ (forall (s : JSString) (d : Z), 0 <= d ->
       (parseUnits s d = Err InvalidAmount <-> ~ matches_amount s)).
Proof.
  assert (Hn : ~ matches_amount (js " 1")).
  { intros [ip [fp Hs]]. apply amount_regex_complete in Hs. discriminate Hs. }
  split; [exact Hn|]. split; [reflexivity|].
  intros H. specialize (H (js " 1") 0 (Z.le_refl 0)).
  apply H in Hn. discriminate Hn.
Qed.

(** ** Unit Converter: round trip *)

Lemma formatUnits_syntax (raw decimals : Z) :
  0 <= raw -> 0 < decimals ->
  exists ip fp,
    AmountSyntax (formatUnits raw decimals) ip fp /\
    str_length fp <= decimals /\
    digits_value (ip ++ padEnd fp decimals "0"%char) = raw.
Proof.
  intros Hr Hd. unfold formatUnits.
  destruct (decimals <=? 0) eqn:E; [apply Z.leb_le in E; lia|]. cbv zeta.
  set (s := padStart (toString raw) (decimals + 1) "0"%char).
  assert (Hlen : decimals + 1 <= str_length s) by apply padStart_length.
  assert (Hdig : all_digits s).
  { unfold s, padStart, all_digits. apply forallb_app_true. split.
    - apply is_digit_zeros.
    - rewrite toString_nonneg by assumption. apply digits_of_is_digit. }
  assert (Hval : digits_value s = raw).
  { unfold s, padStart. rewrite digits_value_zeros, toString_nonneg by assumption.
    apply digits_of_value; assumption. }
  rewrite slice_integer_part, slice_fraction_part by lia.
  set (n := (length s - Z.to_nat decimals)%nat).
  assert (Hs : s = firstn n s ++ skipn n s) by (symmetry; apply firstn_skipn).
  assert (Hfl : str_length (skipn n s) = decimals).
  { unfold str_length in *. rewrite length_skipn. unfold n. lia. }
  assert (Hi : firstn n s <> []).
  { intros Hnil. apply (f_equal (@length ascii)) in Hnil.
    rewrite length_firstn in Hnil. cbn in Hnil. unfold str_length, n in *. lia. }
  unfold all_digits in Hdig. rewrite Hs in Hdig. apply forallb_app_true in Hdig.
  destruct Hdig as [Hdi Hdf].
  pose proof (replace_trailing_zeros_digits _ Hdf) as Hds.
  pose proof (replace_trailing_zeros_length (skipn n s)) as Hsl.
  pose proof (padEnd_replace_trailing_zeros (skipn n s)) as Hpad.
  rewrite Hfl in Hpad, Hsl.
  exists (firstn n s), (replace_trailing_zeros (skipn n s)).
  split; [|split; [exact Hsl|rewrite Hpad, <- Hs; exact Hval]].
  destruct (replace_trailing_zeros (skipn n s)) as [|c fp] eqn:Efp.
  - apply AmountWhole; assumption.
  - apply AmountFraction; try assumption. discriminate.
Qed.

(** C2. Round trip of the Unit Converter: for every non-negative integer
    [r] and every [d >= 0], parsing the display string of [r] gives [r]
    back. *)
Theorem parseUnits_formatUnits (r d : Z) :
  0 <= r -> 0 <= d -> parseUnits (formatUnits r d) d = Ok r.
Proof.
  intros Hr Hd. destruct (Z.eq_dec d 0) as [->|Hnz].
  - assert (Hs : AmountSyntax (formatUnits r 0) (digits_of r) []).
    { unfold formatUnits. cbn [Z.leb Z.compare]. rewrite toString_nonneg by assumption.
      apply AmountWhole; [apply digits_of_nonempty|apply digits_of_is_digit]. }
    pose proof (trim_no_space _ (amount_no_space _ _ _ Hs)) as Ht.
    rewrite <- Ht in Hs. rewrite (parseUnits_syntax _ 0 _ _ Hs).
    change (str_length [] >? 0) with false. change (0 >? 0) with false. cbv iota.
    rewrite app_nil_r, digits_of_value by assumption. reflexivity.
  - destruct (formatUnits_syntax r d Hr ltac:(lia)) as [ip [fp [Hs [Hl Hv]]]].
    pose proof (trim_no_space _ (amount_no_space _ _ _ Hs)) as Ht.
    rewrite <- Ht in Hs.
    rewrite (parseUnits_padded _ d ip fp Hs Hl), Hv. reflexivity.
Qed.

Lemma parseUnits_formatUnits_witness :
  parseUnits (formatUnits 1500000 6) 6 = Ok 1500000.
Proof. apply (parseUnits_formatUnits 1500000 6); lia. Defined.

(** ** Map and Set *)

Lemma str_eqb_eq (a b : JSString) : str_eqb a b = true <-> a = b.
Proof.
  revert b. induction a as [|x a IH]; intros [|y b]; cbn; split; intros H;
    try reflexivity; try discriminate.
  - apply andb_prop in H. destruct H as [H1 H2].
    apply Ascii.eqb_eq in H1. apply IH in H2. subst. reflexivity.
  - injection H as -> ->. rewrite Ascii.eqb_refl. apply IH. reflexivity.
Qed.

Lemma str_eqb_refl (a : JSString) : str_eqb a a = true.
Proof. apply str_eqb_eq. reflexivity. Qed.

Lemma str_eqb_neq (a b : JSString) : str_eqb a b = false <-> a <> b.
Proof.
  split.
  - intros H E. apply str_eqb_eq in E. congruence.
  - intros H. destruct (str_eqb a b) eqn:E; [|reflexivity].
    apply str_eqb_eq in E. contradiction.
Qed.

Lemma map_get_set_same (k : JSString) (v : Z) (m : JSMap) :
  map_get k (map_set k v m) = Some v.
Proof.
  induction m as [|[k' v'] t IH]; cbn.
  - rewrite str_eqb_refl. reflexivity.
  - destruct (str_eqb k' k) eqn:E; cbn; rewrite E; [reflexivity|exact IH].
Qed.

Lemma map_get_set_other (k k' : JSString) (v : Z) (m : JSMap) :
  k <> k' -> map_get k' (map_set k v m) = map_get k' m.
Proof.
  intros Hne. induction m as [|[k0 v0] t IH]; cbn.
  - apply str_eqb_neq in Hne. rewrite Hne. reflexivity.
  - destruct (str_eqb k0 k) eqn:E; cbn.
    + apply str_eqb_eq in E. subst k0.
      apply str_eqb_neq in Hne. rewrite Hne. reflexivity.
    + rewrite IH. reflexivity.
Qed.

Lemma map_set_new (k : JSString) (v : Z) (m : JSMap) :
  map_get k m = None -> map_set k v m = m ++ [(k, v)].
Proof.
  induction m as [|[k' v'] t IH]; cbn; [reflexivity|].
  destruct (str_eqb k' k); [discriminate|].
  intros H. rewrite (IH H). reflexivity.
Qed.

Lemma map_get_app (k : JSString) (m1 m2 : JSMap) :
  map_get k (m1 ++ m2) =
    match map_get k m1 with
    | Some v => Some v
    | None => map_get k m2
    end.
Proof.
  induction m1 as [|[k' v'] t IH]; cbn; [reflexivity|].
  destruct (str_eqb k' k); [reflexivity|exact IH].
Qed.

Lemma map_get_none_keys (k : JSString) (m : JSMap) :
  map_get k m = None <-> ~ In k (map_keys m).
Proof.
  induction m as [|[k' v'] t IH]; cbn.
  - split; [intros _ []|reflexivity].
  - destruct (str_eqb k' k) eqn:E.
    + apply str_eqb_eq in E. split; [discriminate|]. intros H. exfalso. apply H. left. exact E.
    + apply str_eqb_neq in E. rewrite IH. split.
      * intros H [H1|H1]; [contradiction|apply H, H1].
      * intros H H1. apply H. right. exact H1.
Qed.

Lemma sum_app (a b : list Z) : sum (a ++ b) = sum a + sum b.
Proof.
  unfold sum. induction a as [|x a IH]; cbn [app fold_right]; [reflexivity|].
  rewrite IH. lia.
Qed.

(** Setting a key changes the sum of the values by the difference to the
    value the key had (0 when it was absent). *)
Lemma sum_values_set (k : JSString) (v : Z) (m : JSMap) :
  sum (map_values (map_set k v m)) =
    sum (map_values m) - nullish (map_get k m) 0 + v.
Proof.
  unfold map_values, sum.
  induction m as [|[k' v'] t IH]; cbn [map_set map_get map snd fold_right nullish].
  - lia.
  - destruct (str_eqb k' k); cbn [map snd fold_right nullish].
    + lia.
    + rewrite IH. lia.
Qed.

Lemma set_has_In (k : JSString) (s : JSSet) : set_has k s = true <-> In k s.
Proof.
  unfold set_has. rewrite existsb_exists. split.
  - intros [x [H1 H2]]. apply str_eqb_eq in H2. subst. exact H1.
  - intros H. exists k. split; [exact H|apply str_eqb_refl].
Qed.

(** ** Lower case *)

Lemma lower_char_idempotent (c : ascii) : lower_char (lower_char c) = lower_char c.
Proof.
  destruct c as [[] [] [] [] [] [] [] []]; reflexivity.
Qed.

Lemma toLowerCase_idempotent (s : JSString) :
  toLowerCase (toLowerCase s) = toLowerCase s.
Proof.
  unfold toLowerCase. rewrite map_map. apply map_ext, lower_char_idempotent.
Qed.

(** On a normalized set the membership test of the source is membership up
    to letter case. *)
Lemma is_excluded_ci (excludedAddresses : JSSet) (row : HolderRow) :
  normalized excludedAddresses ->
  (is_excluded excludedAddresses row = true <->
   excluded_ci excludedAddresses (address row)).
Proof.
  intros Hn. unfold is_excluded, excluded_ci. rewrite set_has_In. split.
  - intros H. exists (toLowerCase (address row)). split; [exact H|].
    apply toLowerCase_idempotent.
  - intros [e [He Hl]]. unfold normalized in Hn. rewrite Forall_forall in Hn.
    rewrite <- Hl, (Hn e He). exact He.
Qed.

(** ** Allocation Engine: the loop over the rows *)

Lemma eligible_total_sum (rows : list HolderRow) (excl : JSSet) :
  eligible_total rows excl = eligible_sum rows excl.
Proof.
  unfold eligible_total, eligible_sum.
  assert (H : forall l a,
             fold_left (fun acc row => acc + rawBalance row) l a
             = a + sum (map rawBalance l)).
  { induction l as [|r l IH]; intros a; cbn [fold_left map].
    - unfold sum. cbn. lia.
    - rewrite IH. unfold sum. cbn [fold_right]. lia. }
  rewrite H. lia.
Qed.

Lemma is_excluded_address (excl : JSSet) (r1 r2 : HolderRow) :
  address r1 = address r2 -> is_excluded excl r1 = is_excluded excl r2.
Proof. unfold is_excluded. intros ->. reflexivity. Qed.

Lemma eligible_rows_In (rows : list HolderRow) (excl : JSSet) (r : HolderRow) :
  In r (eligible_rows rows excl) <-> In r rows /\ is_excluded excl r = false.
Proof.
  unfold eligible_rows. rewrite filter_In, negb_true_iff. reflexivity.
Qed.

Section AllocationLoop.

Variables (T E : Z) (excl : JSSet).

Lemma allocate_row_eq (st : JSMap * Z) (row : HolderRow) :
  allocate_row T E excl st row =
    (set_share T E excl (fst st) row, snd st + share_of T E excl row).
Proof.
  destruct st as [m a]. unfold allocate_row, set_share, share_of.
  destruct (is_excluded excl row); cbn [fst snd]; [|reflexivity].
  rewrite Z.add_0_r. reflexivity.
Qed.

Lemma allocate_loop (rows : list HolderRow) :
  forall st,
    fold_left (allocate_row T E excl) rows st =
      (fold_left (set_share T E excl) rows (fst st),
       snd st + sum (map (share_of T E excl) rows)).
Proof.
  induction rows as [|r rows IH]; intros st; cbn [fold_left map].
  - destruct st. unfold sum. cbn. f_equal. lia.
  - rewrite IH, allocate_row_eq. cbn [fst snd]. f_equal.
    unfold sum. cbn [fold_right]. lia.
Qed.

(** With distinct addresses every row appends its own entry. *)
Lemma set_share_entries (rows : list HolderRow) :
  forall m,
    NoDup (map address rows) ->
    (forall r, In r rows -> map_get (address r) m = None) ->
    fold_left (set_share T E excl) rows m = m ++ map (entry_of T E excl) rows.
Proof.
  induction rows as [|r rows IH]; intros m Hnd Hfresh; cbn [fold_left map].
  - rewrite app_nil_r. reflexivity.
  - cbn [map] in Hnd. apply NoDup_cons_iff in Hnd. destruct Hnd as [Hr Hnd].
    unfold set_share at 2. rewrite map_set_new by (apply Hfresh; left; reflexivity).
    rewrite IH.
    + rewrite <- app_assoc. reflexivity.
    + exact Hnd.
    + intros r' Hr'. rewrite map_get_app, (Hfresh r') by (right; exact Hr').
      cbn [map_get]. destruct (str_eqb (address r) (address r')) eqn:Eq; [|reflexivity].
      apply str_eqb_eq in Eq. exfalso. apply Hr. rewrite Eq.
      apply in_map, Hr'.
Qed.

Lemma map_get_entries (rows : list HolderRow) (r : HolderRow) :
  NoDup (map address rows) -> In r rows ->
  map_get (address r) (map (entry_of T E excl) rows) = Some (share_of T E excl r).
Proof.
  induction rows as [|x rows IH]; intros Hnd Hin; [destruct Hin|].
  cbn [map] in Hnd. apply NoDup_cons_iff in Hnd. destruct Hnd as [Hx Hnd].
  cbn [map map_get entry_of]. fold (entry_of T E excl).
  destruct (str_eqb (address x) (address r)) eqn:Eq.
  - apply str_eqb_eq in Eq. destruct Hin as [->|Hin]; [reflexivity|].
    exfalso. apply Hx. rewrite Eq. apply in_map, Hin.
  - apply str_eqb_neq in Eq. destruct Hin as [->|Hin]; [contradiction|].
    apply IH; assumption.
Qed.

Lemma sum_values_entries (rows : list HolderRow) :
  sum (map_values (map (entry_of T E excl) rows)) =
    sum (map (share_of T E excl) rows).
Proof. unfold map_values. rewrite map_map. reflexivity. Qed.

(** Excluded rows contribute nothing to the allocated sum. *)
Lemma shares_eligible (rows : list HolderRow) :
  sum (map (share_of T E excl) rows) =
    sum (map (share_of T E excl) (eligible_rows rows excl)).
Proof.
  unfold sum, eligible_rows.
  induction rows as [|r rows IH]; cbn [map filter fold_right]; [reflexivity|].
  unfold share_of at 1.
  destruct (is_excluded excl r) eqn:Ex; cbn [negb map fold_right].
  - rewrite IH. lia.
  - rewrite IH. unfold share_of at 2. rewrite Ex. reflexivity.
Qed.

Hypothesis E_pos : 0 < E.
Hypothesis T_nonneg : 0 <= T.

(** On non-negative operands BigInt division is the floor. *)
Lemma share_floor (r : HolderRow) :
  0 <= rawBalance r -> is_excluded excl r = false ->
  share_of T E excl r = T * rawBalance r / E.
Proof.
  intros Hb Ex. unfold share_of. rewrite Ex.
  apply Z.quot_div_nonneg; [apply Z.mul_nonneg_nonneg; assumption|exact E_pos].
Qed.

Lemma shares_floor (rows : list HolderRow) :
  Forall (fun r => 0 <= rawBalance r) rows ->
  sum (map (share_of T E excl) rows) =
    sum (map (fun r => T * rawBalance r / E) (eligible_rows rows excl)).
Proof.
  intros Hb. rewrite shares_eligible. f_equal. apply map_ext_in.
  intros r Hr. apply eligible_rows_In in Hr. destruct Hr as [Hin Ex].
  rewrite Forall_forall in Hb. apply share_floor; [apply Hb, Hin|exact Ex].
Qed.

(** The floors never add up to more than their exact total. *)
Lemma floors_bound (l : list HolderRow) :
  Forall (fun r => 0 <= rawBalance r) l ->
  E * sum (map (fun r => T * rawBalance r / E) l) <= T * sum (map rawBalance l).
Proof.
  unfold sum. induction l as [|r l IH]; intros Hb; cbn [map fold_right]; [lia|].
  apply Forall_cons_iff in Hb. destruct Hb as [Hr Hb]. specialize (IH Hb).
  pose proof (Z.mul_div_le (T * rawBalance r) E E_pos). lia.
Qed.

End AllocationLoop.

Lemma eligible_rows_nonneg (rows : list HolderRow) (excl : JSSet) :
  Forall (fun r => 0 <= rawBalance r) rows ->
  Forall (fun r => 0 <= rawBalance r) (eligible_rows rows excl).
Proof.
  rewrite !Forall_forall. intros H r Hr. apply eligible_rows_In in Hr. apply H, Hr.
Qed.

(** The remainder of the source, [totalAirdropRaw - allocated], is not
    negative. *)
Lemma remainder_nonneg (rows : list HolderRow) (T : Z) (excl : JSSet) :
  Forall (fun r => 0 <= rawBalance r) rows -> 0 <= T ->
  0 < eligible_sum rows excl ->
  0 <= T - sum (map (share_of T (eligible_sum rows excl) excl) rows).
Proof.
  intros Hb HT HE. rewrite (shares_floor T _ excl HE HT rows Hb).
  pose proof (floors_bound T _ HE (eligible_rows rows excl)
                (eligible_rows_nonneg rows excl Hb)) as H.
  fold (eligible_sum rows excl) in H. nia.
Qed.

(** [allocate] with the loop replaced by what it computes. *)
Lemma allocate_unfold (rows : list HolderRow) (T : Z) (excl : JSSet) :
  allocate rows T excl =
    let E := eligible_sum rows excl in
    if E =? 0 then Err NoEligibleHolders
    else
      let m := fold_left (set_share T E excl) rows [] in
      let remainder := T - sum (map (share_of T E excl) rows) in
      if (remainder >? 0) && (Z.of_nat (length (eligible_rows rows excl)) >? 0) then
        match eligible_rows rows excl with
        | first :: _ =>
            Ok (map_set (address first)
                  (nullish (map_get (address first) m) 0 + remainder) m)
        | [] => Err TypeError
        end
      else Ok m.
Proof.
  unfold allocate. rewrite eligible_total_sum. cbv zeta.
  destruct (eligible_sum rows excl =? 0); [reflexivity|].
  rewrite allocate_loop. cbn [fst snd]. rewrite Z.add_0_l. reflexivity.
Qed.

(** ** Allocation Engine: the claims *)

Lemma eligible_rows_nonempty (rows : list HolderRow) (excl : JSSet) :
  eligible_sum rows excl <> 0 ->
  exists first rest, eligible_rows rows excl = first :: rest.
Proof.
  unfold eligible_sum. destruct (eligible_rows rows excl) as [|first rest].
  - intros H. exfalso. apply H. reflexivity.
  - intros _. exists first, rest. reflexivity.
Qed.

Lemma allocate_succeeds (rows : list HolderRow) (T : Z) (excl : JSSet) :
  eligible_sum rows excl <> 0 -> exists m, allocate rows T excl = Ok m.
Proof.
  intros HE. rewrite allocate_unfold. cbv zeta.
  destruct (eligible_sum rows excl =? 0) eqn:E0; [apply Z.eqb_eq in E0; contradiction|].
  destruct (eligible_rows_nonempty rows excl HE) as [first [rest ->]].
  destruct (_ && _); eexists; reflexivity.
Qed.

(** C4. [allocate] fails with NoEligibleHolders exactly when the raw
    balances of the eligible rows sum to zero; otherwise it returns an
    allocation map.  A single holder that is excluded is such a case. *)
Theorem allocate_no_eligible_holders (rows : list HolderRow) (T : Z) (excl : JSSet) :
  (allocate rows T excl = Err NoEligibleHolders <-> eligible_sum rows excl = 0) /\
  (eligible_sum rows excl <> 0 -> exists m, allocate rows T excl = Ok m) /\
  (forall row, is_excluded excl row = true ->
     allocate [row] T excl = Err NoEligibleHolders).
Proof.
  split; [|split].
  - split.
    + intros H. destruct (Z.eq_dec (eligible_sum rows excl) 0) as [E0|E0]; [exact E0|].
      destruct (allocate_succeeds rows T excl E0) as [m Hm]. congruence.
    + intros H. rewrite allocate_unfold. cbv zeta. rewrite H. reflexivity.
  - apply allocate_succeeds.
  - intros row Hx. rewrite allocate_unfold. cbv zeta.
    unfold eligible_sum, eligible_rows. cbn [filter]. rewrite Hx. reflexivity.
Qed.

Lemma allocate_no_eligible_holders_witness :
  allocate [row_of "0xAB" 100] 10 [js "0xab"] = Err NoEligibleHolders /\
  exists m, allocate [row_of "0xAB" 100; row_of "0xcd" 7] 10 [js "0xab"] = Ok m.
Proof.
  split.
  - apply (proj2 (proj2 (allocate_no_eligible_holders [] 10 [js "0xab"]))). reflexivity.
  - apply (proj1 (proj2 (allocate_no_eligible_holders
                           [row_of "0xAB" 100; row_of "0xcd" 7] 10 [js "0xab"]))).
    vm_compute. discriminate.
Defined.

(** C1. Allocation exactness: for rows with distinct addresses (the rows
    of [main] are the entries of a Map) and non-negative raw balances,
    every total [T >= 0] and every excluded set that leaves a positive
    eligible total, [allocate] returns a map whose values sum to [T]. *)
Theorem allocation_exact (rows : list HolderRow) (T : Z) (excl : JSSet) :
  NoDup (map address rows) ->
  Forall (fun r => 0 <= rawBalance r) rows ->
  0 <= T ->
  0 < eligible_sum rows excl ->
  exists m, allocate rows T excl = Ok m /\ sum (map_values m) = T.
Proof.
  intros Hnd Hb HT HE.
  pose proof (remainder_nonneg rows T excl Hb HT HE) as Hrem.
  rewrite allocate_unfold. cbv zeta.
  destruct (eligible_sum rows excl =? 0) eqn:E0; [apply Z.eqb_eq in E0; lia|].
  rewrite set_share_entries by (assumption || reflexivity). cbn [app].
  set (E := eligible_sum rows excl) in *.
  set (m := map (entry_of T E excl) rows).
  assert (Hsum : sum (map_values m) = sum (map (share_of T E excl) rows))
    by apply sum_values_entries.
  destruct (eligible_rows_nonempty rows excl ltac:(fold E; lia)) as [first [rest ->]].
  destruct (T - sum (map (share_of T E excl) rows) >? 0) eqn:Er; cbn [andb length].
  - replace (Z.of_nat (S (length rest)) >? 0) with true
      by (symmetry; rewrite Z.gtb_ltb; apply Z.ltb_lt; lia).
    eexists. split; [reflexivity|].
    rewrite sum_values_set, Hsum. lia.
  - eexists. split; [reflexivity|].
    rewrite Z.gtb_ltb in Er. apply Z.ltb_ge in Er. lia.
Qed.

Lemma allocation_exact_witness :
  exists m,
    allocate [row_of "A" 100; row_of "B" 100; row_of "C" 100] 10 [js "b"] = Ok m /\
    sum (map_values m) = 10.
Proof.
  apply (allocation_exact [row_of "A" 100; row_of "B" 100; row_of "C" 100] 10 [js "b"]).
  - repeat constructor; cbn; intuition discriminate.
  - repeat constructor; cbn; lia.
  - lia.
  - reflexivity.
Defined.

Lemma NoDup_eligible_addresses (rows : list HolderRow) (excl : JSSet) :
  NoDup (map address rows) -> NoDup (map address (eligible_rows rows excl)).
Proof.
  unfold eligible_rows. induction rows as [|r rows IH]; cbn [map filter]; intros H.
  - constructor.
  - apply NoDup_cons_iff in H. destruct H as [Hr H].
    destruct (negb (is_excluded excl r)); [|apply IH, H].
    cbn [map]. constructor; [|apply IH, H].
    intros Hin. apply Hr. apply in_map_iff in Hin. destruct Hin as [x [Hx Hin]].
    apply filter_In in Hin. rewrite <- Hx. apply in_map, Hin.
Qed.

(** C3. Remainder assignment: with distinct addresses, non-negative
    balances, [T >= 0] and a positive eligible total [E], the base share
    of an eligible row is [floor (T * rawBalance / E)], the remainder
    [T] minus the base shares is not negative, and the map gives the
    first eligible row its base share plus the whole remainder and every
    other eligible row its base share.  Rows (A,100),(B,100),(C,100)
    with [T = 10] get A:4, B:3, C:3. *)
Theorem remainder_to_first_eligible (rows : list HolderRow) (T : Z) (excl : JSSet) :
  (NoDup (map address rows) ->
   Forall (fun r => 0 <= rawBalance r) rows ->
   0 <= T ->
   0 < eligible_sum rows excl ->
   let E := eligible_sum rows excl in
   let base := fun r => T * rawBalance r / E in
   let remainder := T - sum (map base (eligible_rows rows excl)) in
   0 <= remainder /\
   exists m first rest,
     eligible_rows rows excl = first :: rest /\
     allocate rows T excl = Ok m /\
     map_get (address first) m = Some (base first + remainder) /\
     forall r, In r rest -> map_get (address r) m = Some (base r)) /\
  allocate [row_of "A" 100; row_of "B" 100; row_of "C" 100] 10 [] =
    Ok [(js "A", 4); (js "B", 3); (js "C", 3)].
Proof.
  split; [|reflexivity].
  intros Hnd Hb HT HE E base remainder.
  pose proof (remainder_nonneg rows T excl Hb HT HE) as Hrem.
  pose proof (shares_floor T E excl HE HT rows Hb) as Hfl.
  fold E in Hrem. rewrite Hfl in Hrem. fold base in Hrem, Hfl. fold remainder in Hrem.
  split; [exact Hrem|].
  destruct (eligible_rows_nonempty rows excl ltac:(fold E; lia)) as [first [rest Hel]].
  assert (Hin : forall r, In r (first :: rest) -> In r rows /\ is_excluded excl r = false).
  { intros r Hr. rewrite <- Hel in Hr. apply eligible_rows_In, Hr. }
  assert (Hget : forall r, In r (first :: rest) ->
             map_get (address r) (map (entry_of T E excl) rows) = Some (base r)).
  { intros r Hr. destruct (Hin r Hr) as [Hr1 Hr2].
    rewrite map_get_entries by assumption.
    rewrite (share_floor T E excl HE HT r); [reflexivity| |exact Hr2].
    rewrite Forall_forall in Hb. apply Hb, Hr1. }
  assert (Hne : forall r, In r rest -> address first <> address r).
  { intros r Hr Heq. pose proof (NoDup_eligible_addresses rows excl Hnd) as Hn.
    rewrite Hel in Hn. cbn [map] in Hn. apply NoDup_cons_iff in Hn.
    apply (proj1 Hn). rewrite Heq. apply in_map, Hr. }
  rewrite allocate_unfold. cbv zeta. fold E.
  destruct (E =? 0) eqn:E0; [apply Z.eqb_eq in E0; lia|].
  rewrite set_share_entries by (assumption || reflexivity). cbn [app].
  rewrite Hfl. fold remainder. rewrite Hel.
  destruct (remainder >? 0) eqn:Er; cbn [andb length].
  - replace (Z.of_nat (S (length rest)) >? 0) with true
      by (symmetry; rewrite Z.gtb_ltb; apply Z.ltb_lt; lia).
    eexists; exists first, rest. split; [reflexivity|]. split; [reflexivity|]. split.
    + rewrite map_get_set_same, Hget by (left; reflexivity). reflexivity.
    + intros r Hr. rewrite map_get_set_other by (apply Hne, Hr).
      apply Hget. right. exact Hr.
  - rewrite Z.gtb_ltb in Er. apply Z.ltb_ge in Er.
    assert (Hz : remainder = 0) by lia.
    eexists; exists first, rest. split; [reflexivity|]. split; [reflexivity|]. split.
    + rewrite Hget by (left; reflexivity). rewrite Hz, Z.add_0_r. reflexivity.
    + intros r Hr. apply Hget. right. exact Hr.
Qed.

Lemma remainder_to_first_eligible_witness :
  0 <= 10 - sum (map (fun r => 10 * rawBalance r / 300)
                   (eligible_rows witness_rows [js "x"])) /\
  exists m first rest,
    eligible_rows witness_rows [js "x"] = first :: rest /\
    allocate witness_rows 10 [js "x"] = Ok m /\
    map_get (address first) m =
      Some (10 * rawBalance first / 300 +
            (10 - sum (map (fun r => 10 * rawBalance r / 300)
                         (eligible_rows witness_rows [js "x"])))) /\
    forall r, In r rest -> map_get (address r) m = Some (10 * rawBalance r / 300).
Proof.
  apply (proj1 (remainder_to_first_eligible witness_rows 10 [js "x"])).
  - repeat constructor; cbn; intuition discriminate.
  - repeat constructor; cbn; lia.
  - lia.
  - reflexivity.
Defined.

(** ** Allocation Engine: excluded rows *)

Section ExcludedKey.

Variables (T E : Z) (excl : JSSet) (k : JSString).
Hypothesis k_excluded : set_has (toLowerCase k) excl = true.

Lemma share_of_excluded_key (r : HolderRow) :
  address r = k -> share_of T E excl r = 0.
Proof.
  intros Hr. unfold share_of, is_excluded. rewrite Hr, k_excluded. reflexivity.
Qed.

(** Once the key of an excluded address holds 0 it keeps it. *)
Lemma set_share_keeps_zero (rows : list HolderRow) :
  forall m, map_get k m = Some 0 ->
    map_get k (fold_left (set_share T E excl) rows m) = Some 0.
Proof.
  induction rows as [|r rows IH]; intros m Hm; cbn [fold_left]; [exact Hm|].
  apply IH. unfold set_share.
  destruct (str_eqb (address r) k) eqn:Eq.
  - apply str_eqb_eq in Eq. rewrite share_of_excluded_key by exact Eq.
    rewrite Eq. apply map_get_set_same.
  - apply str_eqb_neq in Eq. rewrite map_get_set_other by exact Eq. exact Hm.
Qed.

Lemma set_share_excluded (rows : list HolderRow) :
  forall m, In k (map address rows) ->
    map_get k (fold_left (set_share T E excl) rows m) = Some 0.
Proof.
  induction rows as [|r rows IH]; intros m Hin; [destruct Hin|].
  cbn [fold_left]. destruct (str_eqb (address r) k) eqn:Eq.
  - apply str_eqb_eq in Eq. apply set_share_keeps_zero.
    unfold set_share. rewrite share_of_excluded_key by exact Eq.
    rewrite Eq. apply map_get_set_same.
  - apply str_eqb_neq in Eq. apply IH.
    destruct Hin as [Hin|Hin]; [contradiction|exact Hin].
Qed.

End ExcludedKey.

(** C8. Excluded-zero: when [allocate] succeeds, every row whose address
    is in the excluded set up to letter case (the set holding lower-cased
    addresses, as [parseCliArgs] builds it) is mapped to exactly 0, and
    the row that takes the remainder is not such a row. *)
Theorem excluded_rows_get_zero (rows : list HolderRow) (T : Z) (excl : JSSet)
    (m : JSMap) :
  normalized excl ->
  allocate rows T excl = Ok m ->
  forall row, In row rows -> excluded_ci excl (address row) ->
    map_get (address row) m = Some 0 /\
    match eligible_rows rows excl with
    | first :: _ => address first <> address row
    | [] => True
    end.
Proof.
  intros Hn Hal row Hin Hci.
  apply (is_excluded_ci excl row Hn) in Hci.
  assert (Hfirst : match eligible_rows rows excl with
                   | first :: _ => address first <> address row
                   | [] => True
                   end).
  { destruct (eligible_rows rows excl) as [|first rest] eqn:Hel; [exact I|].
    intros Heq. assert (Hf : In first (eligible_rows rows excl))
      by (rewrite Hel; left; reflexivity).
    apply eligible_rows_In in Hf. destruct Hf as [_ Hf].
    rewrite (is_excluded_address excl first row Heq) in Hf. congruence. }
  split; [|exact Hfirst].
  rewrite allocate_unfold in Hal. cbv zeta in Hal.
  destruct (eligible_sum rows excl =? 0); [discriminate|].
  assert (Hloop : map_get (address row)
                    (fold_left (set_share T (eligible_sum rows excl) excl) rows [])
                  = Some 0).
  { apply set_share_excluded; [exact Hci|apply in_map, Hin]. }
  destruct (_ && _) in Hal.
  - destruct (eligible_rows rows excl) as [|first rest]; [discriminate|].
    injection Hal as <-. rewrite map_get_set_other by exact Hfirst. exact Hloop.
  - injection Hal as <-. exact Hloop.
Qed.

Lemma excluded_rows_get_zero_witness :
  map_get (js "0xAB") [(js "0xAB", 0); (js "0xcd", 4); (js "0xef", 3)] = Some 0 /\
  address (row_of "0xcd" 100) <> js "0xAB".
Proof.
  refine (excluded_rows_get_zero
            [row_of "0xAB" 500; row_of "0xcd" 100; row_of "0xef" 100] 7 [js "0xab"]
            [(js "0xAB", 0); (js "0xcd", 4); (js "0xef", 3)] _ _
            (row_of "0xAB" 500) _ _).
  - repeat constructor.
  - reflexivity.
  - left. reflexivity.
  - exists (js "0xab"). split; [left; reflexivity|reflexivity].
Defined.

(** ** Pagination Aggregator *)

Lemma add_nodes_app (p1 p2 : list Node) :
  forall m, add_nodes (p1 ++ p2) m = bind (add_nodes p1 m) (add_nodes p2).
Proof.
  induction p1 as [|n p1 IH]; intros m; cbn [app add_nodes bind]; [reflexivity|].
  destruct (owner_address n); [|reflexivity].
  destruct (balance n); try reflexivity. apply IH.
Qed.

Lemma add_nodes_error (page : list Node) :
  forall m e, add_nodes page m = Err e -> e = TypeError \/ e = SyntaxError.
Proof.
  induction page as [|n page IH]; intros m e; cbn [add_nodes]; [discriminate|].
  destruct (owner_address n); [|intros H; injection H as <-; left; reflexivity].
  destruct (balance n).
  - apply IH.
  - intros H; injection H as <-; left; reflexivity.
  - intros H; injection H as <-; right; reflexivity.
Qed.

Lemma node_total_cons (a : JSString) (n : Node) (page : list Node) :
  node_total a (n :: page) =
    (if owned_by a n then node_value n else 0) + node_total a page.
Proof.
  unfold node_total, sum. cbn [filter].
  destruct (owned_by a n); cbn [map fold_right]; lia.
Qed.

(** Every node adds its balance to the total of its owner, starting from
    0 for an owner not seen before, and leaves the other totals alone. *)
Lemma add_nodes_total (page : list Node) :
  forall m m', add_nodes page m = Ok m' ->
    forall a, nullish (map_get a m') 0 = nullish (map_get a m) 0 + node_total a page.
Proof.
  induction page as [|n page IH]; intros m m' H a; cbn [add_nodes] in H.
  - injection H as <-. unfold node_total, sum. cbn. lia.
  - rewrite node_total_cons. unfold owned_by, node_value.
    destruct (owner_address n) as [o|]; [|discriminate].
    destruct (balance n) as [v| |]; try discriminate.
    rewrite (IH _ _ H a).
    destruct (str_eqb o a) eqn:Eq.
    + apply str_eqb_eq in Eq. subst o. rewrite map_get_set_same.
      cbn [nullish]. lia.
    + apply str_eqb_neq in Eq. rewrite map_get_set_other by exact Eq. lia.
Qed.

Section AggregatorFacts.

Variable Server : Type.
Variable postGraphQL : Server -> option JSString -> result (Payload * Server).

(** The loop over the pages computes what the inner loop computes on
    all their nodes in one go: page boundaries do not matter. *)
Lemma aggregate_fetched (fuel : nat) :
  forall server cursor m m',
    aggregate Server postGraphQL fuel server cursor m = Some (Ok m') ->
    add_nodes (fetched_nodes Server postGraphQL fuel server cursor) m = Ok m'.
Proof.
  induction fuel as [|fuel IH]; intros server cursor m m' H;
    cbn [aggregate fetched_nodes] in *; [discriminate|].
  destruct (postGraphQL server cursor) as [[payload server']|e]; [|discriminate].
  unfold process_page in H. destruct payload as [c|]; [|discriminate].
  rewrite add_nodes_app.
  destruct (add_nodes (nullish (nodes c) []) m) as [m1|e] eqn:E1; [|discriminate].
  cbn [bind]. destruct (pageInfo c) as [info|].
  - destruct (hasNextPage info).
    + apply IH, H.
    + injection H as <-. reflexivity.
  - injection H as <-. reflexivity.
Qed.

(** More fuel does not change a result. *)
Lemma aggregate_fuel (fuel : nat) :
  forall server cursor m r,
    aggregate Server postGraphQL fuel server cursor m = Some r ->
    aggregate Server postGraphQL (S fuel) server cursor m = Some r.
Proof.
  induction fuel as [|fuel IH]; intros server cursor m r H; [discriminate|].
  cbn [aggregate] in H. remember (S fuel) as f eqn:Ef. cbn [aggregate].
  destruct (postGraphQL server cursor) as [[payload server']|e]; [|exact H].
  destruct (process_page payload m) as [[m1 [c|]]|e]; try exact H.
  subst f. apply IH, H.
Qed.

End AggregatorFacts.

Lemma node_total_app (a : JSString) (p q : list Node) :
  node_total a (p ++ q) = node_total a p + node_total a q.
Proof.
  unfold node_total. rewrite filter_app, map_app. apply sum_app.
Qed.

Lemma add_nodes_entries (entries : list (JSString * Z)) :
  forall m, exists m', add_nodes (entries_nodes entries) m = Ok m'.
Proof.
  induction entries as [|[a v] entries IH]; intros m; cbn.
  - exists m. reflexivity.
  - apply IH.
Qed.

Lemma aggregate_last_page (entries : list (JSString * Z)) (rest : list Payload)
    (fuel : nat) (cursor : option JSString) (m m' : JSMap) :
  add_nodes (entries_nodes entries) m = Ok m' ->
  aggregate _ scripted (S fuel) (page_of entries None :: rest) cursor m = Some (Ok m').
Proof.
  intros H. cbn [aggregate scripted page_of process_page nodes nullish].
  rewrite H. reflexivity.
Qed.

Lemma aggregate_next_page (entries : list (JSString * Z)) (rest : list Payload)
    (fuel : nat) (cursor : option JSString) (c : JSString) (m m' : JSMap) :
  add_nodes (entries_nodes entries) m = Ok m' ->
  aggregate _ scripted (S fuel) (page_of entries (Some c) :: rest) cursor m =
    aggregate _ scripted fuel rest (Some c) m'.
Proof.
  intros H. cbn [aggregate scripted page_of process_page nodes nullish].
  rewrite H. reflexivity.
Qed.

(** C6. Aggregation is additive across pages.  Whatever the endpoint
    answers, the total of an owner after the loop is its total before
    plus the balances of all its entries on all pages (0 before the first
    sight).  So an owner's balance split over two pages gives every owner
    the total that one page with the summed entry gives; and the pages
    (A,100),(B,50) then (A,25) give A:125, B:50. *)
Theorem aggregation_additive :
  (forall (Server : Type)
          (postGraphQL : Server -> option JSString -> result (Payload * Server))
          fuel server cursor m m',
     aggregate Server postGraphQL fuel server cursor m = Some (Ok m') ->
     forall a,
       nullish (map_get a m') 0 =
         nullish (map_get a m) 0 +
         node_total a (fetched_nodes Server postGraphQL fuel server cursor)) /\
  (forall a x y es1 es2 c,
     exists m2 m1,
       aggregate _ scripted 2%nat
         [page_of (es1 ++ [(a, x)]) (Some c); page_of ((a, y) :: es2) None] None []
         = Some (Ok m2) /\
       aggregate _ scripted 1%nat [page_of (es1 ++ (a, x + y) :: es2) None] None []
         = Some (Ok m1) /\
       forall owner, nullish (map_get owner m2) 0 = nullish (map_get owner m1) 0) /\
  aggregate _ scripted 2%nat
    [page_of [(js "A", 100); (js "B", 50)] (Some (js "c1"));
     page_of [(js "A", 25)] None] None []
    = Some (Ok [(js "A", 125); (js "B", 50)]).
Proof.
  split; [|split; [|reflexivity]].
  - intros Server postGraphQL fuel server cursor m m' H a.
    apply add_nodes_total. apply aggregate_fetched, H.
  - intros a x y es1 es2 c.
    destruct (add_nodes_entries (es1 ++ [(a, x)]) []) as [ma Ha].
    destruct (add_nodes_entries ((a, y) :: es2) ma) as [m2 H2].
    destruct (add_nodes_entries (es1 ++ (a, x + y) :: es2) []) as [m1 H1].
    exists m2, m1. split; [|split].
    + rewrite (aggregate_next_page _ _ _ _ _ _ _ Ha). apply aggregate_last_page, H2.
    + apply aggregate_last_page, H1.
    + intros owner.
      rewrite (add_nodes_total _ _ _ H2 owner), (add_nodes_total _ _ _ Ha owner),
        (add_nodes_total _ _ _ H1 owner).
      unfold entries_nodes. rewrite !map_app. cbn [map fst snd].
      rewrite !node_total_app, !node_total_cons.
      unfold owned_by, node_value, node_of. cbn [owner_address balance].
      destruct (str_eqb a owner); unfold node_total, sum; cbn [filter map fold_right]; lia.
Qed.

Lemma aggregation_additive_witness :
  nullish (map_get (js "A") [(js "A", 125); (js "B", 50)]) 0 =
    nullish (map_get (js "A") []) 0 +
    node_total (js "A")
      (fetched_nodes _ scripted 2%nat
         [page_of [(js "A", 100); (js "B", 50)] (Some (js "c1"));
          page_of [(js "A", 25)] None] None).
Proof.
  apply (proj1 aggregation_additive (list Payload) scripted 2%nat
           [page_of [(js "A", 100); (js "B", 50)] (Some (js "c1"));
            page_of [(js "A", 25)] None] None [] [(js "A", 125); (js "B", 50)]).
  reflexivity.
Defined.

(** C10. A page whose connection object has no node list is an empty
    page: no error, the balances stay as they are, and the loop goes on
    or stops by the page's [hasNextPage] alone.  MalformedResponse is
    raised exactly when the connection object is absent. *)
Theorem missing_nodes_tolerated :
  (forall (info : option PageInfo) (balances : JSMap),
     process_page (Some {| nodes := None; pageInfo := info |}) balances =
       Ok (balances,
           match info with
           | Some i => if hasNextPage i then Some (endCursor i) else None
           | None => None
           end)) /\
  (forall (payload : Payload) (balances : JSMap),
     process_page payload balances = Err MalformedResponse <-> payload = None) /\
  (forall (Server : Type)
          (postGraphQL : Server -> option JSString -> result (Payload * Server))
          fuel server server' cursor balances info,
     postGraphQL server cursor = Ok (Some {| nodes := None; pageInfo := info |}, server') ->
     aggregate Server postGraphQL (S fuel) server cursor balances =
       match info with
       | Some i =>
           if hasNextPage i
           then aggregate Server postGraphQL fuel server' (endCursor i) balances
           else Some (Ok balances)
       | None => Some (Ok balances)
       end).
Proof.
  split; [|split].
  - intros [i|] balances; cbn; [destruct (hasNextPage i)|]; reflexivity.
  - intros payload balances. split.
    + destruct payload as [c|]; [|reflexivity]. unfold process_page.
      destruct (add_nodes (nullish (nodes c) []) balances) as [m|e] eqn:E.
      * destruct (pageInfo c) as [i|]; [destruct (hasNextPage i)|]; discriminate.
      * intros H. injection H as ->.
        apply add_nodes_error in E. destruct E; discriminate.
    + intros ->. reflexivity.
  - intros Server postGraphQL fuel server server' cursor balances info H.
    cbn [aggregate]. rewrite H. cbn.
    destruct info as [i|]; [destruct (hasNextPage i)|]; reflexivity.
Qed.

Lemma missing_nodes_tolerated_witness :
  aggregate _ scripted 2%nat
    [Some {| nodes := None;
             pageInfo := Some {| hasNextPage := true; endCursor := Some (js "c1") |} |};
     page_of [(js "A", 25)] None] None [(js "B", 1)]
  = aggregate _ scripted 1%nat [page_of [(js "A", 25)] None] (Some (js "c1")) [(js "B", 1)].
Proof.
  apply (proj2 (proj2 missing_nodes_tolerated) (list Payload) scripted 1%nat
           _ [page_of [(js "A", 25)] None] None [(js "B", 1)]
           (Some {| hasNextPage := true; endCursor := Some (js "c1") |})).
  reflexivity.
Defined.

(** ** Command line *)

(** C9 fails on this command line: [--exclude] is passed, [--airdrop] is
    not, the value [","] holds no address, the set stays empty and
    [parseCliArgs] returns normally. *)
Theorem exclude_without_airdrop_accepted :
  let argv := [js "0x2::sui::SUI"; js "--exclude"; js ","] in
  passes_flag (js "--exclude") argv = true /\
  passes_flag (js "--airdrop") argv = false /\
  parseCliArgs argv =
    Ok {| coinAddress := js "0x2::sui::SUI";
          airdropAmount := None;
          excludedAddresses := [] |}.
Proof. repeat split; reflexivity. Qed.

(** X7. What [parseCliArgs] guarantees when it returns: an exclusion set
    that is not empty comes with an airdrop amount. *)
Lemma parseCliArgs_exclude_needs_airdrop (argv : list JSString) (cli : CliArgs) :
  parseCliArgs argv = Ok cli ->
  excludedAddresses cli <> [] -> airdropAmount cli <> None.
Proof.
  unfold parseCliArgs. destruct argv as [|first rest]; [discriminate|].
  destruct (_ || _); [discriminate|].
  destruct (parse_flags rest None []) as [[a ex]|e]; [|discriminate].
  destruct a as [a|]; cbn [andb].
  - rewrite andb_false_r. intros H. injection H as <-. cbn. discriminate.
  - rewrite andb_true_r. destruct (set_size ex >? 0) eqn:E; [discriminate|].
    intros H. injection H as <-. cbn. intros Hne.
    rewrite Z.gtb_ltb in E. apply Z.ltb_ge in E. unfold set_size in E.
    destruct ex; [contradiction|]. cbn [length] in E. lia.
Qed.

Lemma set_add_normalized (k : JSString) (s : JSSet) :
  toLowerCase k = k -> normalized s -> normalized (set_add k s).
Proof.
  unfold set_add, normalized. intros Hk Hs. destruct (set_has k s); [exact Hs|].
  apply Forall_app. split; [exact Hs|]. constructor; [exact Hk|constructor].
Qed.

Lemma add_excluded_normalized (parts : list JSString) :
  forall s, normalized s -> normalized (add_excluded parts s).
Proof.
  induction parts as [|a parts IH]; intros s Hs; cbn [add_excluded]; [exact Hs|].
  apply IH. destruct (is_empty _); [exact Hs|].
  apply set_add_normalized; [apply toLowerCase_idempotent|exact Hs].
Qed.

Lemma parse_flags_normalized (args : list JSString) :
  forall n, (length args <= n)%nat ->
  forall a s a' s',
    normalized s -> parse_flags args a s = Ok (a', s') -> normalized s'.
Proof.
  intros n. revert args.
  induction n as [|n IH]; intros args Hlen a s a' s' Hs H.
  - destruct args; [|cbn in Hlen; lia]. cbn in H. injection H as _ <-. exact Hs.
  - destruct args as [|arg rest]; [cbn in H; injection H as _ <-; exact Hs|].
    cbn [parse_flags] in H. cbn [length] in Hlen.
    destruct (str_eqb arg (js "--airdrop")).
    + destruct rest as [|value rest']; [discriminate|].
      destruct (_ || _); [discriminate|].
      apply (IH rest' ltac:(cbn [length] in Hlen; lia) _ _ _ _ Hs H).
    + destruct (str_eqb arg (js "--exclude")); [|discriminate].
      destruct rest as [|value rest']; [discriminate|].
      destruct (_ || _); [discriminate|].
      apply (IH rest' ltac:(cbn [length] in Hlen; lia) _ _ _ _
               (add_excluded_normalized _ _ Hs) H).
Qed.

(** The exclusion set of a parsed command line is normalized. *)
Lemma parseCliArgs_normalized (argv : list JSString) (cli : CliArgs) :
  parseCliArgs argv = Ok cli -> normalized (excludedAddresses cli).
Proof.
  unfold parseCliArgs. destruct argv as [|first rest]; [discriminate|].
  destruct (_ || _); [discriminate|].
  destruct (parse_flags rest None []) as [[a ex]|e] eqn:E; [|discriminate].
  destruct (_ && _); [discriminate|].
  intros H. injection H as <-. cbn.
  apply (parse_flags_normalized rest (length rest) (Nat.le_refl _) _ _ _ _
           (Forall_nil _) E).
Qed.

(** ** The rows of [main] have distinct addresses *)

Lemma map_keys_set (k : JSString) (v : Z) (m : JSMap) :
  map_keys (map_set k v m) =
    if existsb (str_eqb k) (map_keys m) then map_keys m else map_keys m ++ [k].
Proof.
  unfold map_keys. induction m as [|[k' v'] t IH]; cbn [map_set map fst existsb app].
  - reflexivity.
  - destruct (str_eqb k' k) eqn:E.
    + apply str_eqb_eq in E. subst k'. rewrite str_eqb_refl. reflexivity.
    + assert (E' : str_eqb k k' = false).
      { apply str_eqb_neq. apply str_eqb_neq in E. congruence. }
      rewrite E'. cbn [orb map fst]. rewrite IH.
      destruct (existsb (str_eqb k) (map fst t)); reflexivity.
Qed.

Lemma map_set_NoDup (k : JSString) (v : Z) (m : JSMap) :
  NoDup (map_keys m) -> NoDup (map_keys (map_set k v m)).
Proof.
  intros H. rewrite map_keys_set.
  destruct (existsb (str_eqb k) (map_keys m)) eqn:E; [exact H|].
  apply NoDup_app; [exact H|repeat constructor; intros []|].
  intros x Hx [<-|[]].
  assert (Ht : existsb (str_eqb k) (map_keys m) = true).
  { apply existsb_exists. exists k. split; [exact Hx|apply str_eqb_refl]. }
  congruence.
Qed.

Lemma add_nodes_NoDup (page : list Node) :
  forall m m', NoDup (map_keys m) -> add_nodes page m = Ok m' -> NoDup (map_keys m').
Proof.
  induction page as [|n page IH]; intros m m' Hm H; cbn [add_nodes] in H.
  - injection H as <-. exact Hm.
  - destruct (owner_address n); [|discriminate].
    destruct (balance n); try discriminate.
    apply (IH _ _ (map_set_NoDup _ _ _ Hm) H).
Qed.

Lemma aggregate_NoDup (Server : Type)
    (postGraphQL : Server -> option JSString -> result (Payload * Server))
    (fuel : nat) (server : Server) (cursor : option JSString) (m m' : JSMap) :
  NoDup (map_keys m) ->
  aggregate Server postGraphQL fuel server cursor m = Some (Ok m') ->
  NoDup (map_keys m').
Proof.
  intros Hm H. apply aggregate_fetched in H.
  apply (add_nodes_NoDup _ _ _ Hm H).
Qed.

Lemma insert_row_In (row x : HolderRow) (l : list HolderRow) :
  In x (insert_row row l) <-> x = row \/ In x l.
Proof.
  induction l as [|y l IH]; cbn [insert_row].
  - cbn. intuition congruence.
  - destruct (rawBalance y >? rawBalance row); cbn [In]; [rewrite IH|];
      intuition congruence.
Qed.

Lemma insert_row_NoDup (row : HolderRow) (l : list HolderRow) :
  ~ In (address row) (map address l) -> NoDup (map address l) ->
  NoDup (map address (insert_row row l)).
Proof.
  induction l as [|y l IH]; cbn [insert_row map]; intros Hr Hl.
  - constructor; [intros []|constructor].
  - destruct (rawBalance y >? rawBalance row); cbn [map].
    + apply NoDup_cons_iff in Hl. destruct Hl as [Hy Hl].
      constructor.
      * intros Hin. apply in_map_iff in Hin. destruct Hin as [x [Hx Hin]].
        apply insert_row_In in Hin. destruct Hin as [->|Hin].
        -- apply Hr. left. symmetry. exact Hx.
        -- apply Hy. rewrite <- Hx. apply in_map, Hin.
      * apply IH; [|exact Hl]. intros Hin. apply Hr. right. exact Hin.
    + constructor; assumption.
Qed.

Lemma sort_rows_In (x : HolderRow) (rows : list HolderRow) :
  In x (sort_rows rows) <-> In x rows.
Proof.
  unfold sort_rows. induction rows as [|r rows IH]; cbn [fold_right]; [reflexivity|].
  rewrite insert_row_In, IH. cbn [In]. intuition congruence.
Qed.

Lemma sort_rows_NoDup (rows : list HolderRow) :
  NoDup (map address rows) -> NoDup (map address (sort_rows rows)).
Proof.
  induction rows as [|r rows IH]; intros H.
  - constructor.
  - change (sort_rows (r :: rows)) with (insert_row r (sort_rows rows)).
    cbn [map] in H. apply NoDup_cons_iff in H. destruct H as [Hr H].
    apply insert_row_NoDup; [|apply IH, H].
    intros Hin. apply Hr. apply in_map_iff in Hin. destruct Hin as [x [Hx Hin]].
    apply (proj1 (sort_rows_In x rows)) in Hin. rewrite <- Hx. apply in_map, Hin.
Qed.

(** The rows that [main] hands to the allocation, the sorted entries of
    the balance map, have distinct addresses. *)
Lemma rows_of_NoDup (balances : JSMap) :
  NoDup (map_keys balances) -> NoDup (map address (rows_of balances)).
Proof.
  intros H. unfold rows_of. apply sort_rows_NoDup.
  rewrite map_map. cbn [address]. exact H.
Qed.

(** Distinct addresses are needed for exactness: [Map.set] overwrites, so
    two rows with one address leave one entry. *)
Example allocate_same_address_twice :
  allocate [row_of "A" 100; row_of "A" 100] 10 [] = Ok [(js "A", 5)].
Proof. reflexivity. Qed.

(** ** A run over finitely many pages returns *)

Lemma aggregate_script (c : JSString) (pages : list (list (JSString * Z))) :
  pages <> [] ->
  forall cursor m0,
  exists m,
    aggregate _ scripted (length pages) (script_of c pages) cursor m0 = Some (Ok m) /\
    forall a,
      nullish (map_get a m) 0 =
        nullish (map_get a m0) 0 + node_total a (entries_nodes (concat pages)).
Proof.
  induction pages as [|es rest IH]; intros Hne cursor m0; [contradiction|].
  destruct (add_nodes_entries es m0) as [m1 H1].
  destruct rest as [|es' rest'].
  - exists m1. split.
    + apply aggregate_last_page, H1.
    + intros a. cbn [concat]. rewrite app_nil_r. apply add_nodes_total, H1.
  - destruct (IH ltac:(discriminate) (Some c) m1) as [m [Hrun Htot]].
    exists m. split.
    + change (script_of c (es :: es' :: rest'))
        with (page_of es (Some c) :: script_of c (es' :: rest')).
      change (length (es :: es' :: rest')) with (S (length (es' :: rest'))).
      rewrite (aggregate_next_page _ _ _ _ _ _ _ H1). exact Hrun.
    + intros a. rewrite Htot, (add_nodes_total _ _ _ H1 a).
      change (concat (es :: es' :: rest')) with (es ++ concat (es' :: rest')).
      unfold entries_nodes. rewrite map_app, node_total_app. lia.
Qed.

(** * Further properties *)

(** ** Unit Converter: what the display string says *)

Lemma fold_digit_step (b : JSString) :
  forall acc,
    fold_left digit_step b acc = acc * 10 ^ str_length b + fold_left digit_step b 0.
Proof.
  unfold str_length. induction b as [|c b IH]; intros acc.
  - cbn. lia.
  - cbn [fold_left length]. rewrite (IH (digit_step acc c)), (IH (digit_step 0 c)).
    rewrite Nat2Z.inj_succ, Z.pow_succ_r by lia. unfold digit_step. lia.
Qed.

Lemma digits_value_app (a b : JSString) :
  digits_value (a ++ b) = digits_value a * 10 ^ str_length b + digits_value b.
Proof.
  unfold digits_value. rewrite fold_left_app. apply fold_digit_step.
Qed.

Lemma is_digit_val (c : ascii) : is_digit c = true -> 0 <= digit_val c <= 9.
Proof.
  unfold is_digit, digit_val. intros H. apply andb_prop in H. destruct H as [H1 H2].
  apply Z.leb_le in H1. apply Z.leb_le in H2. lia.
Qed.

Lemma digits_value_bound (s : JSString) :
  all_digits s -> 0 <= digits_value s < 10 ^ str_length s.
Proof.
  unfold all_digits. induction s as [|c s IH] using rev_ind; intros H.
  - cbn. lia.
  - apply forallb_app_true in H. destruct H as [Hs Hc].
    cbn in Hc. rewrite andb_true_r in Hc. apply is_digit_val in Hc.
    specialize (IH Hs). rewrite digits_value_app.
    change (digits_value [c]) with (10 * 0 + digit_val c).
    unfold str_length in *. rewrite length_app. cbn [length].
    rewrite Nat2Z.inj_add, Z.pow_add_r by lia.
    change (10 ^ Z.of_nat 1) with 10. nia.
Qed.

Lemma padEnd_length (s : JSString) (n : Z) (c : ascii) :
  str_length s <= n -> str_length (padEnd s n c) = n.
Proof.
  unfold padEnd, str_length. intros H. rewrite length_app, repeat_length. lia.
Qed.

Lemma padEnd_digits (s : JSString) (n : Z) :
  all_digits s -> all_digits (padEnd s n "0"%char).
Proof.
  unfold all_digits, padEnd. intros H. apply forallb_app_true.
  split; [exact H|apply is_digit_zeros].
Qed.

(** The parts of a text of the amount syntax are determined by the text. *)
Lemma amount_syntax_unique text ip1 fp1 ip2 fp2 :
  AmountSyntax text ip1 fp1 -> AmountSyntax text ip2 fp2 -> ip1 = ip2 /\ fp1 = fp2.
Proof.
  intros H1 H2. apply amount_split in H1, H2.
  destruct H1 as [<- <-], H2 as [<- <-]. split; reflexivity.
Qed.

(** [formatUnits] cuts the padded digits of [raw] into an integer part
    and [decimals] fractional digits, and prints the latter stripped. *)
Lemma formatUnits_parts (raw decimals : Z) :
  0 <= raw -> 0 < decimals ->
  exists ip F,
    ip <> [] /\ all_digits ip /\ all_digits F /\ str_length F = decimals /\
    digits_value (ip ++ F) = raw /\
    formatUnits raw decimals =
      match replace_trailing_zeros F with
      | [] => ip
      | c :: fp => ip ++ "."%char :: c :: fp
      end.
Proof.
  intros Hr Hd. unfold formatUnits.
  destruct (decimals <=? 0) eqn:E; [apply Z.leb_le in E; lia|]. cbv zeta.
  set (s := padStart (toString raw) (decimals + 1) "0"%char).
  assert (Hlen : decimals + 1 <= str_length s) by apply padStart_length.
  rewrite slice_integer_part, slice_fraction_part by lia.
  set (n := (length s - Z.to_nat decimals)%nat).
  assert (Hs : firstn n s ++ skipn n s = s) by apply firstn_skipn.
  assert (Hdig : all_digits (firstn n s ++ skipn n s)).
  { rewrite Hs. unfold s, padStart, all_digits. apply forallb_app_true. split.
    - apply is_digit_zeros.
    - rewrite toString_nonneg by assumption. apply digits_of_is_digit. }
  apply forallb_app_true in Hdig. destruct Hdig as [Hdi Hdf].
  exists (firstn n s), (skipn n s).
  split; [|split; [exact Hdi|split; [exact Hdf|split; [|split]]]].
  - intros Hnil. apply (f_equal (@length ascii)) in Hnil.
    rewrite length_firstn in Hnil. cbn in Hnil. unfold str_length, n in *. lia.
  - unfold str_length in *. rewrite length_skipn. unfold n. lia.
  - rewrite Hs. unfold s, padStart.
    rewrite digits_value_zeros, toString_nonneg by assumption.
    apply digits_of_value; assumption.
  - destruct (replace_trailing_zeros (skipn n s)); reflexivity.
Qed.

Lemma formatUnits_parts_syntax (ip F : JSString) :
  ip <> [] -> all_digits ip -> all_digits F ->
  AmountSyntax
    (match replace_trailing_zeros F with
     | [] => ip
     | c :: fp => ip ++ "."%char :: c :: fp
     end) ip (replace_trailing_zeros F).
Proof.
  intros Hne Hdi Hdf. pose proof (replace_trailing_zeros_digits _ Hdf) as Hds.
  destruct (replace_trailing_zeros F) as [|c fp].
  - apply AmountWhole; assumption.
  - apply AmountFraction; try assumption. discriminate.
Qed.

Lemma last_not_zero (s pre : JSString) (c : ascii) :
  replace_trailing_zeros s = pre ++ [c] -> c <> "0"%char.
Proof.
  intros H Hc. pose proof (replace_trailing_zeros_last s) as Hl.
  rewrite H, rev_app_distr in Hl. cbn in Hl. subst c. discriminate Hl.
Qed.

(** X1. The display string of a non-negative amount is always of the
    amount syntax that [parseUnits] accepts; its fractional part has at
    most [decimals] digits and never ends in a zero (and there is no
    fractional part at all when [decimals <= 0]). *)
Theorem formatUnits_canonical (raw decimals : Z) :
  0 <= raw ->
  exists ip fp,
    AmountSyntax (formatUnits raw decimals) ip fp /\
    str_length fp <= Z.max decimals 0 /\
    (forall pre c, fp = pre ++ [c] -> c <> "0"%char).
Proof.
  intros Hr. destruct (Z.le_gt_cases decimals 0) as [Hd|Hd].
  - exists (digits_of raw), []. split; [|split].
    + unfold formatUnits. destruct (decimals <=? 0) eqn:E; [|apply Z.leb_gt in E; lia].
      rewrite toString_nonneg by assumption.
      apply AmountWhole; [apply digits_of_nonempty|apply digits_of_is_digit].
    + cbn. lia.
    + intros pre c H. destruct pre; discriminate H.
  - destruct (formatUnits_parts raw decimals Hr Hd)
      as [ip [F [Hne [Hdi [Hdf [Hlen [_ ->]]]]]]].
    exists ip, (replace_trailing_zeros F). split; [|split].
    + apply formatUnits_parts_syntax; assumption.
    + pose proof (replace_trailing_zeros_length F). lia.
    + intros pre c H. apply (last_not_zero F pre c H).
Qed.

Lemma formatUnits_canonical_witness :
  exists ip fp,
    AmountSyntax (formatUnits 1500000 6) ip fp /\
    str_length fp <= Z.max 6 0 /\
    (forall pre c, fp = pre ++ [c] -> c <> "0"%char).
Proof. apply (formatUnits_canonical 1500000 6). lia. Defined.

(** X2. The display string splits the amount at the decimal point: its
    integer part writes [raw / 10^decimals], and its fractional part,
    padded to [decimals] digits, writes [raw mod 10^decimals]. *)
Theorem formatUnits_value (raw decimals : Z) :
  0 <= raw -> 0 < decimals ->
  exists ip fp,
    AmountSyntax (formatUnits raw decimals) ip fp /\
    digits_value ip = raw / 10 ^ decimals /\
    digits_value (padEnd fp decimals "0"%char) = raw mod 10 ^ decimals.
Proof.
  intros Hr Hd.
  destruct (formatUnits_parts raw decimals Hr Hd)
    as [ip [F [Hne [Hdi [Hdf [Hlen [Hv ->]]]]]]].
  exists ip, (replace_trailing_zeros F).
  split; [apply formatUnits_parts_syntax; assumption|].
  pose proof (padEnd_replace_trailing_zeros F) as Hpad. rewrite Hlen in Hpad.
  rewrite Hpad. rewrite digits_value_app, Hlen in Hv.
  pose proof (digits_value_bound F Hdf) as Hb. rewrite Hlen in Hb.
  assert (Hp : 0 < 10 ^ decimals) by (apply Z.pow_pos_nonneg; lia).
  split.
  - apply (Z.div_unique raw (10 ^ decimals) (digits_value ip) (digits_value F)); lia.
  - apply (Z.mod_unique raw (10 ^ decimals) (digits_value ip) (digits_value F)); lia.
Qed.

Lemma formatUnits_value_witness :
  exists ip fp,
    AmountSyntax (formatUnits 1234567 3) ip fp /\
    digits_value ip = 1234567 / 10 ^ 3 /\
    digits_value (padEnd fp 3 "0"%char) = 1234567 mod 10 ^ 3.
Proof. apply (formatUnits_value 1234567 3); lia. Defined.

(** X3. Two different non-negative amounts never get the same display
    string, whatever the number of decimals. *)
Theorem formatUnits_injective (r1 r2 decimals : Z) :
  0 <= r1 -> 0 <= r2 ->
  formatUnits r1 decimals = formatUnits r2 decimals -> r1 = r2.
Proof.
  intros H1 H2 Heq. destruct (Z.le_gt_cases decimals 0) as [Hd|Hd].
  - unfold formatUnits in Heq.
    destruct (decimals <=? 0) eqn:E; [|apply Z.leb_gt in E; lia].
    rewrite !toString_nonneg in Heq by assumption.
    rewrite <- (digits_of_value r1 H1), <- (digits_of_value r2 H2), Heq. reflexivity.
  - destruct (formatUnits_syntax r1 decimals H1 Hd) as [ip1 [fp1 [Hs1 [_ Hv1]]]].
    destruct (formatUnits_syntax r2 decimals H2 Hd) as [ip2 [fp2 [Hs2 [_ Hv2]]]].
    rewrite Heq in Hs1.
    destruct (amount_syntax_unique _ _ _ _ _ Hs1 Hs2) as [-> ->]. congruence.
Qed.

Lemma formatUnits_injective_witness : 1500000 = 1500000.
Proof. apply (formatUnits_injective 1500000 1500000 6); [lia|lia|reflexivity]. Defined.

Lemma parseUnits_ok_inv (amount : JSString) (decimals v : Z) :
  parseUnits amount decimals = Ok v ->
  exists ip fp,
    AmountSyntax (trim amount) ip fp /\
    str_length fp <= decimals /\
    v = digits_value ip * 10 ^ decimals
        + digits_value fp * 10 ^ (decimals - str_length fp) /\
    0 <= v.
Proof.
  intros H.
  destruct (amount_regex_test (trim amount)) eqn:Et.
  2:{ rewrite (parseUnits_no_match _ _ Et) in H. discriminate H. }
  destruct (amount_regex_sound _ Et) as [ip [fp Hs]].
  destruct (Z.le_gt_cases (str_length fp) decimals) as [Hl|Hl].
  2:{ rewrite (parseUnits_overflow _ _ ip fp Hs) in H by lia. discriminate H. }
  rewrite (parseUnits_padded _ _ ip fp Hs Hl) in H. injection H as <-.
  destruct (amount_parts_digits _ _ _ Hs) as [Hdi Hdf].
  exists ip, fp. split; [exact Hs|]. split; [exact Hl|].
  assert (Hfl : 0 <= str_length fp) by (unfold str_length; lia).
  assert (Hval : digits_value (ip ++ padEnd fp decimals "0"%char)
                 = digits_value ip * 10 ^ decimals
                   + digits_value fp * 10 ^ (decimals - str_length fp)).
  { rewrite digits_value_app, padEnd_length by exact Hl. f_equal.
    unfold padEnd. rewrite digits_value_app.
    replace (digits_value (repeat "0"%char _)) with 0.
    - unfold str_length at 1. rewrite repeat_length, Z2Nat.id by lia. lia.
    - symmetry. rewrite <- (app_nil_r (repeat _ _)). apply digits_value_zeros. }
  split; [exact Hval|]. rewrite Hval.
  pose proof (digits_value_bound ip Hdi). pose proof (digits_value_bound fp Hdf).
  assert (0 <= 10 ^ decimals) by (apply Z.pow_nonneg; lia).
  assert (0 <= 10 ^ (decimals - str_length fp)) by (apply Z.pow_nonneg; lia).
  nia.
Qed.

(** X4. When [parseUnits] returns a value, the trimmed text is of the
    amount syntax with at most [decimals] fractional digits, and the
    value is the integer part scaled by [10^decimals] plus the fractional
    digits scaled to the same unit; it is never negative. *)
Theorem parseUnits_value (amount : JSString) (decimals v : Z) :
  parseUnits amount decimals = Ok v ->
  exists ip fp,
    AmountSyntax (trim amount) ip fp /\
    str_length fp <= decimals /\
    v = digits_value ip * 10 ^ decimals
        + digits_value fp * 10 ^ (decimals - str_length fp) /\
    0 <= v.
Proof. apply parseUnits_ok_inv. Qed.

Lemma parseUnits_value_witness :
  exists ip fp,
    AmountSyntax (trim (js " 12.5 ")) ip fp /\
    str_length fp <= 3 /\
    12500 = digits_value ip * 10 ^ 3 + digits_value fp * 10 ^ (3 - str_length fp) /\
    0 <= 12500.
Proof. apply (parseUnits_value (js " 12.5 ") 3 12500). reflexivity. Defined.

(** ** Command line: errors and the parsed values *)

Lemma parse_flags_error (n : nat) :
  forall args, (length args <= n)%nat ->
  forall a s e,
    parse_flags args a s = Err e ->
    e = MissingArgumentValue (js "--airdrop") \/
    e = MissingArgumentValue (js "--exclude") \/
    exists arg, In arg args /\ is_flag arg = false /\ e = UnknownArgument arg.
Proof.
  induction n as [|n IH]; intros args Hlen a s e H.
  - destruct args; [discriminate H|cbn in Hlen; lia].
  - destruct args as [|arg rest]; [discriminate H|].
    cbn [parse_flags] in H. cbn [length] in Hlen.
    destruct (str_eqb arg (js "--airdrop")) eqn:Ea.
    + destruct rest as [|value rest']; [injection H as <-; left; reflexivity|].
      destruct (_ || _); [injection H as <-; left; reflexivity|].
      destruct (IH rest' ltac:(cbn [length] in Hlen; lia) _ _ _ H)
        as [He|[He|[x [Hx [Hf He]]]]]; auto.
      right; right. exists x. split; [right; right; exact Hx|auto].
    + destruct (str_eqb arg (js "--exclude")) eqn:Ee.
      * destruct rest as [|value rest']; [injection H as <-; right; left; reflexivity|].
        destruct (_ || _); [injection H as <-; right; left; reflexivity|].
        destruct (IH rest' ltac:(cbn [length] in Hlen; lia) _ _ _ H)
          as [He|[He|[x [Hx [Hf He]]]]]; auto.
        right; right. exists x. split; [right; right; exact Hx|auto].
      * injection H as <-. right; right. exists arg.
        split; [left; reflexivity|]. unfold is_flag. rewrite Ea, Ee. auto.
Qed.

Lemma parseCliArgs_unfold (first : JSString) (rest : list JSString) :
  parseCliArgs (first :: rest) =
    if is_empty (trim first) || startsWith (trim first) (js "--")
    then Err MissingCoinAddress
    else match parse_flags rest None [] with
         | Err e => Err e
         | Ok state => finish_cli (trim first) state
         end.
Proof.
  unfold parseCliArgs, finish_cli.
  destruct (_ || _); [reflexivity|].
  destruct (parse_flags rest None []) as [[a ex]|e]; reflexivity.
Qed.

(** X5. [parseCliArgs] reports a missing coin address exactly when there
    is no first argument, or the first argument is blank after trimming,
    or it starts with [--]. *)
Theorem parseCliArgs_missing_coin (argv : list JSString) :
  parseCliArgs argv = Err MissingCoinAddress <->
  match argv with
  | [] => True
  | first :: _ => trim first = [] \/ startsWith (trim first) (js "--") = true
  end.
Proof.
  destruct argv as [|first rest]; [split; [intros _; exact I|reflexivity]|].
  rewrite parseCliArgs_unfold.
  destruct (is_empty (trim first)) eqn:E1; cbn [orb].
  - split; [|reflexivity]. intros _. left. destruct (trim first); [reflexivity|discriminate].
  - destruct (startsWith (trim first) (js "--")) eqn:E2.
    + split; [|reflexivity]. intros _. right. reflexivity.
    + split.
      * intros H. exfalso.
        destruct (parse_flags rest None []) as [[a ex]|e] eqn:Ef.
        -- unfold finish_cli in H. destruct (_ && _); discriminate H.
        -- injection H as ->.
           destruct (parse_flags_error _ rest (Nat.le_refl _) _ _ _ Ef)
             as [He|[He|[x [_ [_ He]]]]]; discriminate He.
      * intros [H|H]; [rewrite H in E1; discriminate|discriminate].
Qed.

Lemma parseCliArgs_error_cases (argv : list JSString) (e : error) :
  parseCliArgs argv = Err e ->
  e = MissingCoinAddress \/
  e = MissingArgumentValue (js "--airdrop") \/
  e = MissingArgumentValue (js "--exclude") \/
  (exists arg, In arg (tl argv) /\ is_flag arg = false /\ e = UnknownArgument arg) \/
  e = ExcludeWithoutAirdrop.
Proof.
  destruct argv as [|first rest]; [intros H; injection H as <-; auto|].
  rewrite parseCliArgs_unfold.
  destruct (_ || _); [intros H; injection H as <-; auto|].
  destruct (parse_flags rest None []) as [[a ex]|e0] eqn:Ef.
  - unfold finish_cli. destruct (_ && _); [|discriminate].
    intros H; injection H as <-. auto 6.
  - intros H; injection H as <-.
    destruct (parse_flags_error _ rest (Nat.le_refl _) _ _ _ Ef)
      as [He|[He|Hx]]; auto 6.
Qed.

Lemma parseCliArgs_missing_coin_witness :
  parseCliArgs [js "  "; js "--airdrop"; js "1"] = Err MissingCoinAddress.
Proof.
  apply (proj2 (parseCliArgs_missing_coin [js "  "; js "--airdrop"; js "1"])).
  left. reflexivity.
Defined.

(** X6. The errors of [parseCliArgs] are the five of the command line: a
    missing coin address, a flag without value, an argument that is no
    flag, and exclusions without airdrop.  In particular the amount is
    not validated here. *)
Theorem parseCliArgs_error_kinds (argv : list JSString) (e : error) :
  parseCliArgs argv = Err e ->
  e = MissingCoinAddress \/
  e = MissingArgumentValue (js "--airdrop") \/
  e = MissingArgumentValue (js "--exclude") \/
  (exists arg, In arg (tl argv) /\ is_flag arg = false /\ e = UnknownArgument arg) \/
  e = ExcludeWithoutAirdrop.
Proof. apply parseCliArgs_error_cases. Qed.

Lemma parseCliArgs_error_kinds_witness :
  UnknownArgument (js "--top") = MissingCoinAddress \/
  UnknownArgument (js "--top") = MissingArgumentValue (js "--airdrop") \/
  UnknownArgument (js "--top") = MissingArgumentValue (js "--exclude") \/
  (exists arg, In arg (tl [js "0x2::sui::SUI"; js "--top"; js "5"]) /\
               is_flag arg = false /\ UnknownArgument (js "--top") = UnknownArgument arg) \/
  UnknownArgument (js "--top") = ExcludeWithoutAirdrop.
Proof.
  apply (parseCliArgs_error_kinds [js "0x2::sui::SUI"; js "--top"; js "5"]).
  reflexivity.
Defined.

Lemma parseCliArgs_exclude_needs_airdrop_witness :
  airdropAmount {| coinAddress := js "0x2::sui::SUI";
                   airdropAmount := Some (js "10");
                   excludedAddresses := [js "0xab"] |} <> None.
Proof.
  apply (parseCliArgs_exclude_needs_airdrop
           [js "0x2::sui::SUI"; js "--exclude"; js "0xAB"; js "--airdrop"; js "10"]).
  - reflexivity.
  - discriminate.
Defined.

(** *** The exclusion set *)

Lemma dropWhile_keeps_last {A} (p : A -> bool) (l : list A) (c : A) :
  p c = false -> exists u, dropWhile p (l ++ [c]) = u ++ [c].
Proof.
  intros Hc. rewrite dropWhile_snoc, Hc.
  destruct (dropWhile p l) as [|x r]; [exists []|exists (x :: r)]; reflexivity.
Qed.

Lemma trim_trimmed (s : JSString) : trimmed (trim s).
Proof.
  unfold trimmed, trim. rewrite rev_involutive. split.
  - destruct (dropWhile is_space s) as [|c t] eqn:E; [exact I|].
    pose proof (dropWhile_head _ _ _ _ E) as Hc.
    cbn [rev]. destruct (dropWhile_keeps_last is_space (rev t) c Hc) as [u ->].
    rewrite rev_app_distr. cbn. exact Hc.
  - destruct (dropWhile is_space (rev (dropWhile is_space s))) as [|c t] eqn:E; [exact I|].
    eapply dropWhile_head, E.
Qed.

Lemma trimmed_trim (s : JSString) : trimmed s -> trim s = s.
Proof.
  intros [H1 H2]. unfold trim.
  rewrite (dropWhile_none is_space s H1), (dropWhile_none is_space (rev s) H2).
  apply rev_involutive.
Qed.

Lemma is_space_lower_char (c : ascii) : is_space (lower_char c) = is_space c.
Proof.
  destruct c as [[] [] [] [] [] [] [] []]; reflexivity.
Qed.

Lemma toLowerCase_trimmed (s : JSString) : trimmed s -> trimmed (toLowerCase s).
Proof.
  unfold trimmed, toLowerCase. intros [H1 H2]. rewrite <- map_rev. split.
  - destruct s as [|c t]; [exact I|]. cbn. rewrite is_space_lower_char. exact H1.
  - destruct (rev s) as [|c t]; [exact I|]. cbn. rewrite is_space_lower_char. exact H2.
Qed.

Lemma set_add_ok (k : JSString) (s : JSSet) :
  k <> [] -> toLowerCase k = k -> trim k = k ->
  excluded_ok s -> excluded_ok (set_add k s).
Proof.
  unfold excluded_ok, set_add. intros H1 H2 H3 [Hn Hf].
  destruct (set_has k s) eqn:E; [split; assumption|]. split.
  - apply NoDup_app; [exact Hn|repeat constructor; intros []|].
    intros x Hx [<-|[]]. apply set_has_In in Hx. congruence.
  - apply Forall_app. split; [exact Hf|]. repeat constructor; assumption.
Qed.

Lemma add_excluded_ok (parts : list JSString) :
  forall s, excluded_ok s -> excluded_ok (add_excluded parts s).
Proof.
  induction parts as [|a parts IH]; intros s Hs; cbn [add_excluded]; [exact Hs|].
  apply IH. destruct (is_empty _) eqn:E; [exact Hs|].
  apply set_add_ok; [| | |exact Hs].
  - intros Hnil. rewrite Hnil in E. discriminate E.
  - apply toLowerCase_idempotent.
  - apply trimmed_trim, toLowerCase_trimmed, trim_trimmed.
Qed.

Lemma parse_flags_ok (n : nat) :
  forall args, (length args <= n)%nat ->
  forall a s a' s',
    excluded_ok s -> parse_flags args a s = Ok (a', s') -> excluded_ok s'.
Proof.
  induction n as [|n IH]; intros args Hlen a s a' s' Hs H.
  - destruct args; [|cbn in Hlen; lia]. cbn in H. injection H as _ <-. exact Hs.
  - destruct args as [|arg rest]; [cbn in H; injection H as _ <-; exact Hs|].
    cbn [parse_flags] in H. cbn [length] in Hlen.
    destruct (str_eqb arg (js "--airdrop")).
    + destruct rest as [|value rest']; [discriminate|].
      destruct (_ || _); [discriminate|].
      apply (IH rest' ltac:(cbn [length] in Hlen; lia) _ _ _ _ Hs H).
    + destruct (str_eqb arg (js "--exclude")); [|discriminate].
      destruct rest as [|value rest']; [discriminate|].
      destruct (_ || _); [discriminate|].
      apply (IH rest' ltac:(cbn [length] in Hlen; lia) _ _ _ _
               (add_excluded_ok _ _ Hs) H).
Qed.

(** X8. The exclusion set of a parsed command line has no duplicates, and
    each of its addresses is non-empty, lower-cased and free of white
    space at its ends. *)
Theorem parseCliArgs_excluded_wellformed (argv : list JSString) (cli : CliArgs) :
  parseCliArgs argv = Ok cli ->
  NoDup (excludedAddresses cli) /\
  Forall (fun e => e <> [] /\ toLowerCase e = e /\ trim e = e) (excludedAddresses cli).
Proof.
  destruct argv as [|first rest]; [discriminate|].
  rewrite parseCliArgs_unfold. destruct (_ || _); [discriminate|].
  destruct (parse_flags rest None []) as [[a ex]|e] eqn:E; [|discriminate].
  unfold finish_cli. destruct (_ && _); [discriminate|].
  intros H. injection H as <-. cbn [excludedAddresses].
  apply (parse_flags_ok _ rest (Nat.le_refl _) _ _ _ _ (conj (NoDup_nil _) (Forall_nil _)) E).
Qed.

Lemma parseCliArgs_excluded_wellformed_witness :
  NoDup [js "0xab"; js "0xcd"] /\
  Forall (fun e => e <> [] /\ toLowerCase e = e /\ trim e = e) [js "0xab"; js "0xcd"].
Proof.
  apply (parseCliArgs_excluded_wellformed
           [js "0x2::sui::SUI"; js "--exclude"; js " 0xAB ,,0xcd, 0xab";
            js "--airdrop"; js "10"]
           {| coinAddress := js "0x2::sui::SUI";
              airdropAmount := Some (js "10");
              excludedAddresses := [js "0xab"; js "0xcd"] |}).
  reflexivity.
Defined.

(** *** Arguments are parsed from left to right *)

Lemma parse_flags_app (n : nat) :
  forall args, (length args <= n)%nat ->
  forall more a s a' s',
    parse_flags args a s = Ok (a', s') ->
    parse_flags (args ++ more) a s = parse_flags more a' s'.
Proof.
  induction n as [|n IH]; intros args Hlen more a s a' s' H.
  - destruct args; [|cbn in Hlen; lia]. cbn in H. injection H as <- <-. reflexivity.
  - destruct args as [|arg rest]; [cbn in H; injection H as <- <-; reflexivity|].
    cbn [parse_flags app] in *. cbn [length] in Hlen.
    destruct (str_eqb arg (js "--airdrop")).
    + destruct rest as [|value rest']; [discriminate|]. cbn [app].
      destruct (_ || _); [discriminate|].
      apply (IH rest' ltac:(cbn [length] in Hlen; lia) _ _ _ _ _ H).
    + destruct (str_eqb arg (js "--exclude")); [|discriminate].
      destruct rest as [|value rest']; [discriminate|]. cbn [app].
      destruct (_ || _); [discriminate|].
      apply (IH rest' ltac:(cbn [length] in Hlen; lia) _ _ _ _ _ H).
Qed.

Lemma parseCliArgs_ok_inv (argv : list JSString) (cli : CliArgs) :
  parseCliArgs argv = Ok cli ->
  exists first rest,
    argv = first :: rest /\
    (is_empty (trim first) || startsWith (trim first) (js "--")) = false /\
    coinAddress cli = trim first /\
    parse_flags rest None [] = Ok (airdropAmount cli, excludedAddresses cli).
Proof.
  destruct argv as [|first rest]; [discriminate|].
  rewrite parseCliArgs_unfold. destruct (_ || _) eqn:E0; [discriminate|].
  destruct (parse_flags rest None []) as [[a ex]|e] eqn:E; [|discriminate].
  unfold finish_cli. destruct (_ && _); [discriminate|].
  intros H. injection H as <-. exists first, rest. repeat split; assumption.
Qed.

(** X9. Arguments appended to an accepted command line are parsed in the
    state the accepted ones left: the result is that of the flag loop on
    the new arguments, started from the airdrop amount and the exclusion
    set parsed so far, followed by the final test. *)
Theorem parseCliArgs_append (argv more : list JSString) (cli : CliArgs) :
  parseCliArgs argv = Ok cli ->
  parseCliArgs (argv ++ more) =
    match parse_flags more (airdropAmount cli) (excludedAddresses cli) with
    | Err e => Err e
    | Ok state => finish_cli (coinAddress cli) state
    end.
Proof.
  intros H. destruct (parseCliArgs_ok_inv _ _ H) as [first [rest [-> [E0 [Hc Hf]]]]].
  cbn [app]. rewrite parseCliArgs_unfold, E0, Hc.
  rewrite (parse_flags_app _ rest (Nat.le_refl _) more _ _ _ _ Hf). reflexivity.
Qed.

Lemma parseCliArgs_append_witness :
  parseCliArgs ([js "0x2::sui::SUI"; js "--airdrop"; js "10"] ++ [js "--exclude"; js "0xAB"]) =
    match parse_flags [js "--exclude"; js "0xAB"] (Some (js "10")) [] with
    | Err e => Err e
    | Ok state => finish_cli (js "0x2::sui::SUI") state
    end.
Proof.
  apply (parseCliArgs_append [js "0x2::sui::SUI"; js "--airdrop"; js "10"]
           [js "--exclude"; js "0xAB"]
           {| coinAddress := js "0x2::sui::SUI";
              airdropAmount := Some (js "10");
              excludedAddresses := [] |}).
  reflexivity.
Defined.

(** X10. The last [--airdrop] wins: after an accepted command line, one
    more [--airdrop] with a value replaces the amount by the trimmed
    value and leaves the coin address and the exclusions as they were. *)
Theorem parseCliArgs_last_airdrop (argv : list JSString) (value : JSString)
    (cli : CliArgs) :
  parseCliArgs argv = Ok cli ->
  flag_value value = true ->
  parseCliArgs (argv ++ [js "--airdrop"; value]) =
    Ok {| coinAddress := coinAddress cli;
          airdropAmount := Some (trim value);
          excludedAddresses := excludedAddresses cli |}.
Proof.
  intros H Hv. destruct (parseCliArgs_ok_inv _ _ H) as [first [rest [-> [E0 [Hc Hf]]]]].
  cbn [app]. rewrite parseCliArgs_unfold, E0, Hc.
  rewrite (parse_flags_app _ rest (Nat.le_refl _) _ _ _ _ _ Hf).
  unfold flag_value in Hv. apply negb_true_iff in Hv.
  cbn [parse_flags]. change (str_eqb (js "--airdrop") (js "--airdrop")) with true.
  cbv iota. rewrite Hv. unfold finish_cli. rewrite andb_false_r. reflexivity.
Qed.

Lemma parseCliArgs_last_airdrop_witness :
  parseCliArgs ([js "0x2::sui::SUI"; js "--airdrop"; js "10"] ++ [js "--airdrop"; js " 2.5"]) =
    Ok {| coinAddress := js "0x2::sui::SUI";
          airdropAmount := Some (js "2.5");
          excludedAddresses := [] |}.
Proof.
  apply (parseCliArgs_last_airdrop [js "0x2::sui::SUI"; js "--airdrop"; js "10"]
           (js " 2.5")
           {| coinAddress := js "0x2::sui::SUI";
              airdropAmount := Some (js "10");
              excludedAddresses := [] |}); reflexivity.
Defined.

(** ** Pagination Aggregator: the balance map *)

Lemma map_keys_set_In (k : JSString) (v : Z) (m : JSMap) (a : JSString) :
  In a (map_keys (map_set k v m)) <-> In a (map_keys m) \/ a = k.
Proof.
  rewrite map_keys_set. destruct (existsb (str_eqb k) (map_keys m)) eqn:E.
  - split; [auto|]. intros [H| ->]; [exact H|].
    apply existsb_exists in E. destruct E as [x [Hx Hk]].
    apply str_eqb_eq in Hk. subst x. exact Hx.
  - rewrite in_app_iff. cbn. intuition congruence.
Qed.

Lemma map_keys_set_prefix (k : JSString) (v : Z) (m : JSMap) :
  exists extra, map_keys (map_set k v m) = map_keys m ++ extra.
Proof.
  rewrite map_keys_set. destruct (existsb _ _).
  - exists []. rewrite app_nil_r. reflexivity.
  - exists [k]. reflexivity.
Qed.

Lemma add_nodes_keys_prefix (page : list Node) :
  forall m m', add_nodes page m = Ok m' ->
    exists extra, map_keys m' = map_keys m ++ extra.
Proof.
  induction page as [|n page IH]; intros m m' H; cbn [add_nodes] in H.
  - injection H as <-. exists []. rewrite app_nil_r. reflexivity.
  - destruct (owner_address n) as [a|]; [|discriminate].
    destruct (balance n) as [v| |]; try discriminate.
    destruct (IH _ _ H) as [extra He].
    destruct (map_keys_set_prefix a (nullish (map_get a m) 0 + v) m) as [e1 H1].
    exists (e1 ++ extra). rewrite He, H1, app_assoc. reflexivity.
Qed.

Lemma add_nodes_keys_In (page : list Node) :
  forall m m', add_nodes page m = Ok m' ->
    forall a, In a (map_keys m') <->
              In a (map_keys m) \/ In (Some a) (map owner_address page).
Proof.
  induction page as [|n page IH]; intros m m' H a; cbn [add_nodes] in H.
  - injection H as <-. cbn. intuition.
  - destruct (owner_address n) as [o|] eqn:Eo; [|discriminate].
    destruct (balance n) as [v| |]; try discriminate.
    rewrite (IH _ _ H a), map_keys_set_In. cbn [map In]. rewrite Eo.
    split.
    + intros [[H1| ->]|H1]; auto.
    + intros [H1|[H1|H1]]; auto. injection H1 as ->. auto.
Qed.

(** X11. The balance map never shrinks while paging: the owners present
    before the loop are still there after it, in the same order, and new
    owners come after them. *)
Theorem aggregate_never_shrinks (Server : Type)
    (postGraphQL : Server -> option JSString -> result (Payload * Server))
    (fuel : nat) (server : Server) (cursor : option JSString) (m m' : JSMap) :
  aggregate Server postGraphQL fuel server cursor m = Some (Ok m') ->
  exists extra, map_keys m' = map_keys m ++ extra.
Proof.
  intros H. apply aggregate_fetched in H. apply (add_nodes_keys_prefix _ _ _ H).
Qed.

Lemma aggregate_never_shrinks_witness :
  exists extra,
    map_keys [(js "B", 1); (js "A", 25)] = map_keys [(js "B", 1)] ++ extra.
Proof.
  apply (aggregate_never_shrinks (list Payload) scripted 1
           [page_of [(js "A", 25)] None] None [(js "B", 1)] [(js "B", 1); (js "A", 25)]).
  reflexivity.
Defined.

(** X12. Started from the empty map, the loop ends with one entry per
    distinct owner: the keys have no duplicates, and an address is a key
    exactly when some fetched node has it as owner. *)
Theorem aggregate_owners (Server : Type)
    (postGraphQL : Server -> option JSString -> result (Payload * Server))
    (fuel : nat) (server : Server) (cursor : option JSString) (m : JSMap) :
  aggregate Server postGraphQL fuel server cursor [] = Some (Ok m) ->
  NoDup (map_keys m) /\
  forall a, In a (map_keys m) <->
            In (Some a)
              (map owner_address (fetched_nodes Server postGraphQL fuel server cursor)).
Proof.
  intros H. apply aggregate_fetched in H. split.
  - apply (add_nodes_NoDup _ [] _ (NoDup_nil _) H).
  - intros a. rewrite (add_nodes_keys_In _ _ _ H a). cbn. intuition.
Qed.

Lemma aggregate_owners_witness :
  NoDup (map_keys [(js "A", 125); (js "B", 50)]) /\
  forall a, In a (map_keys [(js "A", 125); (js "B", 50)]) <->
            In (Some a)
              (map owner_address
                 (fetched_nodes _ scripted 2
                    [page_of [(js "A", 100); (js "B", 50)] (Some (js "c1"));
                     page_of [(js "A", 25)] None] None)).
Proof.
  apply (aggregate_owners (list Payload) scripted 2
           [page_of [(js "A", 100); (js "B", 50)] (Some (js "c1"));
            page_of [(js "A", 25)] None] None).
  reflexivity.
Defined.

Lemma map_get_In_values (k : JSString) (m : JSMap) (v : Z) :
  map_get k m = Some v -> In v (map_values m).
Proof.
  unfold map_values. induction m as [|[k' v'] t IH]; cbn; [discriminate|].
  destruct (str_eqb k' k); [intros H; injection H as ->; left; reflexivity|].
  intros H. right. apply IH, H.
Qed.

Lemma map_set_values (k : JSString) (v : Z) (m : JSMap) (P : Z -> Prop) :
  P v -> Forall P (map_values m) -> Forall P (map_values (map_set k v m)).
Proof.
  unfold map_values. intros Hv. induction m as [|[k' v'] t IH]; cbn [map_set map snd].
  - intros _. repeat constructor. exact Hv.
  - intros H. apply Forall_cons_iff in H. destruct H as [H1 H2].
    destruct (str_eqb k' k); cbn [map snd]; constructor; auto.
Qed.

Lemma add_nodes_nonneg (page : list Node) :
  forall m m',
    Forall (fun n => 0 <= node_value n) page ->
    Forall (fun v => 0 <= v) (map_values m) ->
    add_nodes page m = Ok m' ->
    Forall (fun v => 0 <= v) (map_values m').
Proof.
  induction page as [|n page IH]; intros m m' Hp Hm H; cbn [add_nodes] in H.
  - injection H as <-. exact Hm.
  - apply Forall_cons_iff in Hp. destruct Hp as [Hn Hp].
    destruct (owner_address n) as [a|]; [|discriminate].
    unfold node_value in Hn.
    destruct (balance n) as [v| |]; try discriminate.
    apply (IH _ _ Hp) in H; [exact H|].
    apply map_set_values; [|exact Hm].
    destruct (map_get a m) as [w|] eqn:Eg; cbn [nullish]; [|lia].
    apply map_get_In_values in Eg. rewrite Forall_forall in Hm.
    specialize (Hm w Eg). lia.
Qed.

(** X13. Non-negative balances stay non-negative: when no fetched node
    carries a negative balance and the map holds none before the loop, it
    holds none after it. *)
Theorem aggregate_nonneg (Server : Type)
    (postGraphQL : Server -> option JSString -> result (Payload * Server))
    (fuel : nat) (server : Server) (cursor : option JSString) (m m' : JSMap) :
  Forall (fun n => 0 <= node_value n)
    (fetched_nodes Server postGraphQL fuel server cursor) ->
  Forall (fun v => 0 <= v) (map_values m) ->
  aggregate Server postGraphQL fuel server cursor m = Some (Ok m') ->
  Forall (fun v => 0 <= v) (map_values m').
Proof.
  intros Hp Hm H. apply aggregate_fetched in H.
  apply (add_nodes_nonneg _ _ _ Hp Hm H).
Qed.

Lemma aggregate_nonneg_witness :
  Forall (fun v => 0 <= v) (map_values [(js "A", 125); (js "B", 50)]).
Proof.
  apply (aggregate_nonneg (list Payload) scripted 2
           [page_of [(js "A", 100); (js "B", 50)] (Some (js "c1"));
            page_of [(js "A", 25)] None] None []).
  - repeat constructor; cbn; lia.
  - constructor.
  - reflexivity.
Defined.

(** *** The order of the nodes does not matter for the totals *)

Lemma add_nodes_ok_iff (page : list Node) :
  forall m, (exists m', add_nodes page m = Ok m') <-> forallb node_ok page = true.
Proof.
  induction page as [|n page IH]; intros m; cbn [add_nodes forallb].
  - split; [reflexivity|]. intros _. exists m. reflexivity.
  - unfold node_ok at 1.
    destruct (owner_address n) as [a|]; [|split; [intros [? H]|intros H]; discriminate].
    destruct (balance n) as [v| |];
      try (split; [intros [? H]|intros H]; discriminate).
    cbn [andb]. apply IH.
Qed.

Lemma forallb_Permutation {A} (p : A -> bool) (l l' : list A) :
  Permutation l l' -> forallb p l = forallb p l'.
Proof.
  induction 1; cbn; try congruence.
  - rewrite !andb_assoc, (andb_comm (p y)). reflexivity.
Qed.

Lemma node_total_Permutation (a : JSString) (l l' : list Node) :
  Permutation l l' -> node_total a l = node_total a l'.
Proof.
  induction 1; rewrite ?node_total_cons; lia.
Qed.

(** X14. The totals do not depend on the order in which the nodes
    arrive: if the inner loop succeeds on a list of nodes, it succeeds on
    every permutation of it and gives every owner the same total. *)
Theorem add_nodes_order_insensitive (page page' : list Node) (m m1 : JSMap) :
  Permutation page page' ->
  add_nodes page m = Ok m1 ->
  exists m2,
    add_nodes page' m = Ok m2 /\
    forall a, nullish (map_get a m2) 0 = nullish (map_get a m1) 0.
Proof.
  intros Hp H1.
  assert (Hok : forallb node_ok page' = true).
  { rewrite <- (forallb_Permutation node_ok _ _ Hp).
    apply (add_nodes_ok_iff page m). exists m1. exact H1. }
  apply (add_nodes_ok_iff page' m) in Hok. destruct Hok as [m2 H2].
  exists m2. split; [exact H2|]. intros a.
  rewrite (add_nodes_total _ _ _ H2 a), (add_nodes_total _ _ _ H1 a).
  rewrite (node_total_Permutation a _ _ Hp). reflexivity.
Qed.

Lemma add_nodes_order_insensitive_witness :
  exists m2,
    add_nodes [node_of (js "B") 50; node_of (js "A") 25; node_of (js "A") 100] [] = Ok m2 /\
    forall a, nullish (map_get a m2) 0
              = nullish (map_get a [(js "A", 125); (js "B", 50)]) 0.
Proof.
  apply (add_nodes_order_insensitive
           [node_of (js "A") 100; node_of (js "B") 50; node_of (js "A") 25]).
  - apply perm_trans with (l' := [node_of (js "B") 50; node_of (js "A") 100; node_of (js "A") 25]).
    + apply perm_swap.
    + apply perm_skip, perm_swap.
  - reflexivity.
Defined.

(** *** The loop has no bound of its own *)

(** X15. The loop runs as long as pages announce a successor: against an
    endpoint whose every answer is a well-formed page with [hasNextPage]
    set, no number of requests makes it return. *)
Theorem aggregate_endless (Server : Type)
    (postGraphQL : Server -> option JSString -> result (Payload * Server)) :
  (forall server cursor, exists connection info server',
      postGraphQL server cursor = Ok (Some connection, server') /\
      forallb node_ok (nullish (nodes connection) []) = true /\
      pageInfo connection = Some info /\ hasNextPage info = true) ->
  forall fuel server cursor m,
    aggregate Server postGraphQL fuel server cursor m = None.
Proof.
  intros Hpost fuel. induction fuel as [|fuel IH]; intros server cursor m; [reflexivity|].
  cbn [aggregate].
  destruct (Hpost server cursor) as [c [info [server' [Hp [Hok [Hi Hn]]]]]].
  rewrite Hp. unfold process_page.
  apply (add_nodes_ok_iff _ m) in Hok. destruct Hok as [m' ->].
  rewrite Hi, Hn. apply IH.
Qed.

Lemma aggregate_endless_witness :
  aggregate unit endless 1000 tt None [] = None.
Proof.
  apply (aggregate_endless unit endless).
  intros server cursor. eexists _, _, tt. split; [reflexivity|].
  repeat split; reflexivity.
Defined.

(** ** Holder rows: the order of the report *)

Lemma insert_row_Permutation (row : HolderRow) (l : list HolderRow) :
  Permutation (insert_row row l) (row :: l).
Proof.
  induction l as [|y l IH]; cbn [insert_row]; [apply Permutation_refl|].
  destruct (rawBalance y >? rawBalance row); [|apply Permutation_refl].
  apply perm_trans with (l' := y :: row :: l); [apply perm_skip, IH|apply perm_swap].
Qed.

Lemma sort_rows_Permutation (rows : list HolderRow) :
  Permutation (sort_rows rows) rows.
Proof.
  induction rows as [|r rows IH]; [apply Permutation_refl|].
  change (sort_rows (r :: rows)) with (insert_row r (sort_rows rows)).
  apply perm_trans with (l' := r :: sort_rows rows);
    [apply insert_row_Permutation|apply perm_skip, IH].
Qed.

(** X16. The rows are the entries of the balance map, each exactly once:
    sorting neither drops nor repeats a holder (not even one with balance
    zero). *)
Theorem rows_of_entries (balances : JSMap) :
  Permutation (map row_entry (rows_of balances)) balances.
Proof.
  unfold rows_of.
  apply perm_trans
    with (l' := map row_entry
                  (map (fun e => {| address := fst e; rawBalance := snd e |}) balances)).
  - apply Permutation_map, sort_rows_Permutation.
  - rewrite map_map. unfold row_entry. cbn [address rawBalance].
    rewrite (map_ext _ (fun e => e)) by (intros [a b]; reflexivity).
    rewrite map_id. apply Permutation_refl.
Qed.

Lemma insert_row_sorted (row : HolderRow) (l : list HolderRow) :
  StronglySorted descending l -> StronglySorted descending (insert_row row l).
Proof.
  induction l as [|y l IH]; cbn [insert_row]; intros H.
  - repeat constructor.
  - apply StronglySorted_inv in H. destruct H as [Hs Hy].
    destruct (rawBalance y >? rawBalance row) eqn:E.
    + rewrite Z.gtb_ltb in E. apply Z.ltb_lt in E. constructor; [apply IH, Hs|].
      rewrite Forall_forall in *. intros x Hx. apply insert_row_In in Hx.
      destruct Hx as [->|Hx]; [unfold descending; lia|apply Hy, Hx].
    + rewrite Z.gtb_ltb in E. apply Z.ltb_ge in E.
      constructor; [constructor; assumption|].
      constructor; [exact E|].
      rewrite Forall_forall in *. intros x Hx. specialize (Hy x Hx).
      unfold descending in *. lia.
Qed.

(** X17. The rows come in descending order of raw balance: no row is
    followed, at any distance, by a row with a larger balance. *)
Theorem rows_of_descending (balances : JSMap) :
  StronglySorted descending (rows_of balances).
Proof.
  unfold rows_of.
  induction (map (fun e => {| address := fst e; rawBalance := snd e |}) balances)
    as [|r rows IH]; [constructor|].
  change (sort_rows (r :: rows)) with (insert_row r (sort_rows rows)).
  apply insert_row_sorted, IH.
Qed.

Lemma insert_row_filter (b : Z) (row : HolderRow) (l : list HolderRow) :
  StronglySorted descending l ->
  filter (fun r => rawBalance r =? b) (insert_row row l) =
  filter (fun r => rawBalance r =? b) (row :: l).
Proof.
  induction l as [|y l IH]; cbn [insert_row]; intros Hs; [reflexivity|].
  apply StronglySorted_inv in Hs. destruct Hs as [Hs Hy].
  destruct (rawBalance y >? rawBalance row) eqn:E; [|reflexivity].
  rewrite Z.gtb_ltb in E. apply Z.ltb_lt in E.
  cbn [filter] in *. rewrite (IH Hs).
  destruct (rawBalance y =? b) eqn:Ey, (rawBalance row =? b) eqn:Er; try reflexivity.
  apply Z.eqb_eq in Ey, Er. lia.
Qed.

(** X18. Holders with equal balances keep the order in which the balance
    map lists them (the order of first sight while paging): for every
    balance, the rows with that balance are the map's entries with that
    balance, in the map's order. *)
Theorem rows_of_stable (balances : JSMap) (b : Z) :
  map row_entry (filter (fun r => rawBalance r =? b) (rows_of balances)) =
  filter (fun e => snd e =? b) balances.
Proof.
  unfold rows_of. induction balances as [|[a v] balances IH]; [reflexivity|].
  cbn [map].
  change (sort_rows (?r :: ?rows)) with (insert_row r (sort_rows rows)).
  rewrite insert_row_filter.
  - cbn [filter rawBalance snd]. destruct (v =? b); cbn [map]; rewrite IH; reflexivity.
  - clear IH.
    induction (map (fun e => {| address := fst e; rawBalance := snd e |}) balances)
      as [|r rows IH]; [constructor|].
    change (sort_rows (r :: rows)) with (insert_row r (sort_rows rows)).
    apply insert_row_sorted, IH.
Qed.

(** ** Allocation Engine: the allocation map *)

Lemma map_keys_entries (T E : Z) (excl : JSSet) (rows : list HolderRow) :
  map_keys (map (entry_of T E excl) rows) = map address rows.
Proof. unfold map_keys. rewrite map_map. reflexivity. Qed.

Lemma map_keys_set_present (k : JSString) (v : Z) (m : JSMap) :
  In k (map_keys m) -> map_keys (map_set k v m) = map_keys m.
Proof.
  intros H. rewrite map_keys_set.
  replace (existsb (str_eqb k) (map_keys m)) with true; [reflexivity|].
  symmetry. apply existsb_exists. exists k. split; [exact H|apply str_eqb_refl].
Qed.

(** The allocation map, entry by entry: the keys are the addresses of the
    rows in their order, and a row holds its share, the first eligible
    row also the positive remainder. *)
Lemma allocate_get (rows : list HolderRow) (T : Z) (excl : JSSet)
    (first : HolderRow) (rest : list HolderRow) :
  NoDup (map address rows) ->
  eligible_rows rows excl = first :: rest ->
  eligible_sum rows excl <> 0 ->
  let E := eligible_sum rows excl in
  let remainder := T - sum (map (share_of T E excl) rows) in
  exists m,
    allocate rows T excl = Ok m /\
    map_keys m = map address rows /\
    forall r, In r rows ->
      map_get (address r) m = Some (share_of T E excl r + bonus first r remainder).
Proof.
  intros Hnd Hel HE E remainder.
  assert (Hfirst : In first rows).
  { assert (Hf : In first (eligible_rows rows excl)) by (rewrite Hel; left; reflexivity).
    apply eligible_rows_In in Hf. apply Hf. }
  rewrite allocate_unfold. cbv zeta. fold E.
  destruct (E =? 0) eqn:E0; [apply Z.eqb_eq in E0; contradiction|].
  rewrite set_share_entries by (assumption || reflexivity). cbn [app].
  fold remainder. rewrite Hel. cbn [length].
  replace (Z.of_nat (S (length rest)) >? 0) with true
    by (symmetry; rewrite Z.gtb_ltb; apply Z.ltb_lt; lia).
  rewrite andb_true_r.
  destruct (remainder >? 0) eqn:Er; rewrite Z.gtb_ltb in Er.
  - apply Z.ltb_lt in Er. eexists. split; [reflexivity|]. split.
    + rewrite map_keys_set_present; [apply map_keys_entries|].
      rewrite map_keys_entries. apply in_map, Hfirst.
    + intros r Hr. unfold bonus.
      destruct (str_eqb (address first) (address r)) eqn:Eq.
      * apply str_eqb_eq in Eq. rewrite <- Eq, map_get_set_same.
        rewrite map_get_entries by assumption. cbn [nullish].
        assert (Hsh : share_of T E excl first = share_of T E excl r).
        { unfold share_of. rewrite (is_excluded_address excl first r Eq).
          destruct (is_excluded excl r); [reflexivity|].
          assert (Hrf : r = first).
          { assert (Hi : forall l : list HolderRow, NoDup (map address l) ->
                      In r l -> In first l -> r = first).
            { induction l as [|x l IHl]; intros Hn H1 H2; [destruct H1|].
              cbn [map] in Hn. apply NoDup_cons_iff in Hn. destruct Hn as [Hx Hn].
              destruct H1 as [->|H1], H2 as [H2|H2].
              - congruence.
              - exfalso. apply Hx. rewrite <- Eq. apply in_map, H2.
              - subst x. exfalso. apply Hx. rewrite Eq. apply in_map, H1.
              - apply IHl; assumption. }
            apply (Hi rows); assumption. }
          rewrite Hrf. reflexivity. }
        rewrite Hsh. f_equal. lia.
      * apply str_eqb_neq in Eq. rewrite map_get_set_other by exact Eq.
        rewrite map_get_entries by assumption. f_equal. lia.
  - apply Z.ltb_ge in Er. eexists. split; [reflexivity|]. split.
    + apply map_keys_entries.
    + intros r Hr. rewrite map_get_entries by assumption. f_equal.
      unfold bonus. destruct (str_eqb _ _); lia.
Qed.

(** X19. The allocation map has one entry per row, in the order of the
    rows: its keys are the addresses of the rows. *)
Theorem allocation_keys (rows : list HolderRow) (T : Z) (excl : JSSet) :
  NoDup (map address rows) ->
  eligible_sum rows excl <> 0 ->
  exists m, allocate rows T excl = Ok m /\ map_keys m = map address rows.
Proof.
  intros Hnd HE.
  destruct (eligible_rows_nonempty rows excl HE) as [first [rest Hel]].
  destruct (allocate_get rows T excl first rest Hnd Hel HE) as [m [Hm [Hk _]]].
  exists m. split; assumption.
Qed.

Lemma allocation_keys_witness :
  exists m, allocate witness_rows 10 [js "x"] = Ok m /\
            map_keys m = map address witness_rows.
Proof.
  apply (allocation_keys witness_rows 10 [js "x"]).
  - repeat constructor; cbn; intuition discriminate.
  - vm_compute. discriminate.
Defined.

Lemma share_of_nonneg (T E : Z) (excl : JSSet) (r : HolderRow) :
  0 < E -> 0 <= T -> 0 <= rawBalance r -> 0 <= share_of T E excl r.
Proof.
  intros HE HT Hb. destruct (is_excluded excl r) eqn:Ex.
  - unfold share_of. rewrite Ex. lia.
  - rewrite (share_floor T E excl HE HT r Hb Ex).
    apply Z.div_pos; [apply Z.mul_nonneg_nonneg; assumption|exact HE].
Qed.

Lemma sum_member_le (l : list Z) (v : Z) :
  Forall (fun x => 0 <= x) l -> In v l -> v <= sum l.
Proof.
  unfold sum. induction l as [|x l IH]; intros Hl Hin; [destruct Hin|].
  apply Forall_cons_iff in Hl. destruct Hl as [Hx Hl]. cbn [fold_right].
  assert (0 <= fold_right Z.add 0 l).
  { clear IH Hin. induction l as [|y l IHl]; cbn [fold_right]; [lia|].
    apply Forall_cons_iff in Hl. destruct Hl as [Hy Hl]. specialize (IHl Hl). lia. }
  destruct Hin as [->|Hin]; [lia|]. specialize (IH Hl Hin). lia.
Qed.

Lemma map_get_In (k : JSString) (v : Z) (m : JSMap) :
  NoDup (map_keys m) -> In (k, v) m -> map_get k m = Some v.
Proof.
  unfold map_keys. induction m as [|[k' v'] t IH]; intros Hn Hin; [destruct Hin|].
  cbn [map fst] in Hn. apply NoDup_cons_iff in Hn. destruct Hn as [Hk Hn].
  cbn [map_get]. destruct Hin as [Heq|Hin].
  - injection Heq as -> ->. rewrite str_eqb_refl. reflexivity.
  - destruct (str_eqb k' k) eqn:E; [|apply IH; assumption].
    apply str_eqb_eq in E. subst k'. exfalso. apply Hk.
    apply (in_map fst) in Hin. exact Hin.
Qed.

(** X20. Non-negativity and boundedness: under the conditions of
    exactness (distinct addresses, non-negative balances, [T >= 0], a
    positive eligible total) every value of the allocation map lies
    between 0 and [T]. *)
Theorem allocation_bounds (rows : list HolderRow) (T : Z) (excl : JSSet) :
  NoDup (map address rows) ->
  Forall (fun r => 0 <= rawBalance r) rows ->
  0 <= T ->
  0 < eligible_sum rows excl ->
  exists m, allocate rows T excl = Ok m /\
            Forall (fun v => 0 <= v <= T) (map_values m).
Proof.
  intros Hnd Hb HT HE.
  destruct (eligible_rows_nonempty rows excl ltac:(lia)) as [first [rest Hel]].
  destruct (allocate_get rows T excl first rest Hnd Hel ltac:(lia)) as [m [Hm [Hk Hget]]].
  cbv zeta in Hget. exists m. split; [exact Hm|].
  pose proof (remainder_nonneg rows T excl Hb HT HE) as Hrem.
  set (E := eligible_sum rows excl) in *.
  set (shares := map (share_of T E excl) rows) in *.
  assert (Hsh : Forall (fun x => 0 <= x) shares).
  { unfold shares. rewrite Forall_map. rewrite Forall_forall in *.
    intros r Hr. apply share_of_nonneg; [exact HE|exact HT|apply Hb, Hr]. }
  unfold map_values. rewrite Forall_map, Forall_forall. intros [k v] Hin.
  assert (Hkin : In k (map address rows)).
  { rewrite <- Hk. apply (in_map fst) in Hin. exact Hin. }
  apply in_map_iff in Hkin. destruct Hkin as [r [Hrk Hr]]. subst k.
  assert (Hnk : NoDup (map_keys m)) by (rewrite Hk; exact Hnd).
  pose proof (map_get_In _ _ _ Hnk Hin) as Hv. rewrite (Hget r Hr) in Hv.
  injection Hv as <-. cbn [snd].
  assert (Hle : share_of T E excl r <= sum shares).
  { apply sum_member_le; [exact Hsh|]. unfold shares. apply in_map, Hr. }
  assert (H0 : 0 <= share_of T E excl r).
  { rewrite Forall_forall in Hsh. apply Hsh. unfold shares. apply in_map, Hr. }
  unfold bonus. destruct (str_eqb _ _); lia.
Qed.

Lemma allocation_bounds_witness :
  exists m, allocate witness_rows 10 [js "x"] = Ok m /\
            Forall (fun v => 0 <= v <= 10) (map_values m).
Proof.
  apply (allocation_bounds witness_rows 10 [js "x"]).
  - repeat constructor; cbn; intuition discriminate.
  - repeat constructor; cbn; lia.
  - lia.
  - reflexivity.
Defined.

(** What the floors leave over is less than one unit per row. *)
Lemma floors_deficit (T E : Z) (l : list HolderRow) :
  0 < E ->
  T * sum (map rawBalance l) - E * sum (map (fun r => T * rawBalance r / E) l)
    <= (E - 1) * Z.of_nat (length l).
Proof.
  intros HE. unfold sum. induction l as [|r l IH]; cbn [map fold_right length]; [lia|].
  rewrite Nat2Z.inj_succ.
  pose proof (Z.div_mod (T * rawBalance r) E ltac:(lia)) as Hdm.
  pose proof (Z.mod_pos_bound (T * rawBalance r) E HE) as Hmb. nia.
Qed.

(** X21. The rounding dust is small: under the conditions of exactness
    the first eligible row gets at least its floor share and less than
    its floor share plus the number of eligible rows. *)
Theorem allocation_dust (rows : list HolderRow) (T : Z) (excl : JSSet) :
  NoDup (map address rows) ->
  Forall (fun r => 0 <= rawBalance r) rows ->
  0 <= T ->
  0 < eligible_sum rows excl ->
  exists m first rest v,
    eligible_rows rows excl = first :: rest /\
    allocate rows T excl = Ok m /\
    map_get (address first) m = Some v /\
    T * rawBalance first / eligible_sum rows excl <= v
      < T * rawBalance first / eligible_sum rows excl
        + Z.of_nat (length (first :: rest)).
Proof.
  intros Hnd Hb HT HE.
  destruct (eligible_rows_nonempty rows excl ltac:(lia)) as [first [rest Hel]].
  destruct (allocate_get rows T excl first rest Hnd Hel ltac:(lia)) as [m [Hm [Hk Hget]]].
  cbv zeta in Hget.
  assert (Hf : In first rows /\ is_excluded excl first = false).
  { apply eligible_rows_In. rewrite Hel. left. reflexivity. }
  destruct Hf as [Hfin Hfex].
  exists m, first, rest. eexists. split; [exact Hel|]. split; [exact Hm|].
  split; [apply Hget, Hfin|].
  pose proof (remainder_nonneg rows T excl Hb HT HE) as Hrem.
  set (E := eligible_sum rows excl) in *.
  rewrite (share_floor T E excl HE HT first) by
    (try exact Hfex; rewrite Forall_forall in Hb; apply Hb, Hfin).
  unfold bonus. rewrite str_eqb_refl.
  rewrite (shares_floor T E excl HE HT rows Hb) in *.
  pose proof (floors_deficit T E (eligible_rows rows excl) HE) as Hdef.
  fold (eligible_sum rows excl) in Hdef. fold E in Hdef. rewrite Hel in *.
  set (fl := sum (map (fun r => T * rawBalance r / E) (first :: rest))) in *.
  set (n := Z.of_nat (length (first :: rest))) in *.
  assert (Hn : 0 < n) by (unfold n; cbn [length]; lia).
  assert (T - fl < n).
  { destruct (Z.lt_ge_cases (T - fl) n) as [Hlt|Hge]; [exact Hlt|].
    assert (E * n <= E * (T - fl)) by (apply Z.mul_le_mono_nonneg_l; lia).
    nia. }
  lia.
Qed.

Lemma allocation_dust_witness :
  exists m first rest v,
    eligible_rows witness_rows [js "x"] = first :: rest /\
    allocate witness_rows 10 [js "x"] = Ok m /\
    map_get (address first) m = Some v /\
    10 * rawBalance first / eligible_sum witness_rows [js "x"] <= v
      < 10 * rawBalance first / eligible_sum witness_rows [js "x"]
        + Z.of_nat (length (first :: rest)).
Proof.
  apply (allocation_dust witness_rows 10 [js "x"]).
  - repeat constructor; cbn; intuition discriminate.
  - repeat constructor; cbn; lia.
  - lia.
  - reflexivity.
Defined.

(** X22. Apart from the first eligible row, the allocation is monotone
    in the balance: of two eligible rows behind the first, the one with
    the larger balance gets at least as much. *)
Theorem allocation_monotone (rows : list HolderRow) (T : Z) (excl : JSSet) :
  NoDup (map address rows) ->
  Forall (fun r => 0 <= rawBalance r) rows ->
  0 <= T ->
  0 < eligible_sum rows excl ->
  exists m first rest,
    eligible_rows rows excl = first :: rest /\
    allocate rows T excl = Ok m /\
    forall r1 r2 v1 v2,
      In r1 rest -> In r2 rest ->
      rawBalance r1 <= rawBalance r2 ->
      map_get (address r1) m = Some v1 ->
      map_get (address r2) m = Some v2 ->
      v1 <= v2.
Proof.
  intros Hnd Hb HT HE.
  destruct (eligible_rows_nonempty rows excl ltac:(lia)) as [first [rest Hel]].
  destruct (allocate_get rows T excl first rest Hnd Hel ltac:(lia)) as [m [Hm [Hk Hget]]].
  cbv zeta in Hget. exists m, first, rest. split; [exact Hel|]. split; [exact Hm|].
  set (E := eligible_sum rows excl) in *.
  assert (Hrest : forall r, In r rest ->
            map_get (address r) m = Some (T * rawBalance r / E)).
  { intros r Hr.
    assert (Hre : In r rows /\ is_excluded excl r = false).
    { apply eligible_rows_In. rewrite Hel. right. exact Hr. }
    destruct Hre as [Hrin Hrex].
    rewrite (Hget r Hrin).
    rewrite (share_floor T E excl HE HT r) by
      (try exact Hrex; rewrite Forall_forall in Hb; apply Hb, Hrin).
    unfold bonus.
    replace (str_eqb (address first) (address r)) with false; [f_equal; lia|].
    symmetry. apply str_eqb_neq. intros Heq.
    pose proof (NoDup_eligible_addresses rows excl Hnd) as Hn.
    rewrite Hel in Hn. cbn [map] in Hn. apply NoDup_cons_iff in Hn.
    apply (proj1 Hn). rewrite Heq. apply in_map, Hr. }
  intros r1 r2 v1 v2 H1 H2 Hle Hv1 Hv2.
  rewrite (Hrest r1 H1) in Hv1. rewrite (Hrest r2 H2) in Hv2.
  injection Hv1 as <-. injection Hv2 as <-.
  apply Z.div_le_mono; [exact HE|]. apply Z.mul_le_mono_nonneg_l; assumption.
Qed.

Lemma allocation_monotone_witness :
  exists m first rest,
    eligible_rows witness_rows [js "x"] = first :: rest /\
    allocate witness_rows 10 [js "x"] = Ok m /\
    forall r1 r2 v1 v2,
      In r1 rest -> In r2 rest ->
      rawBalance r1 <= rawBalance r2 ->
      map_get (address r1) m = Some v1 ->
      map_get (address r2) m = Some v2 ->
      v1 <= v2.
Proof.
  apply (allocation_monotone witness_rows 10 [js "x"]).
  - repeat constructor; cbn; intuition discriminate.
  - repeat constructor; cbn; lia.
  - lia.
  - reflexivity.
Defined.

(** *** Only the proportions of the balances matter *)

Lemma eligible_rows_scale (k : Z) (rows : list HolderRow) (excl : JSSet) :
  eligible_rows (scale_rows k rows) excl = scale_rows k (eligible_rows rows excl).
Proof.
  unfold eligible_rows, scale_rows.
  induction rows as [|r rows IH]; cbn [map filter]; [reflexivity|].
  change (is_excluded excl (scale_row k r)) with (is_excluded excl r).
  destruct (negb (is_excluded excl r)); cbn [map]; rewrite IH; reflexivity.
Qed.

Lemma eligible_sum_scale (k : Z) (rows : list HolderRow) (excl : JSSet) :
  eligible_sum (scale_rows k rows) excl = k * eligible_sum rows excl.
Proof.
  unfold eligible_sum. rewrite eligible_rows_scale. unfold scale_rows, sum.
  induction (eligible_rows rows excl) as [|r l IH]; cbn [map fold_right rawBalance scale_row].
  - lia.
  - unfold scale_rows in IH. rewrite IH. lia.
Qed.

Lemma share_of_scale (k T E : Z) (excl : JSSet) (r : HolderRow) :
  k <> 0 -> E <> 0 ->
  share_of T (k * E) excl (scale_row k r) = share_of T E excl r.
Proof.
  intros Hk HE. unfold share_of.
  change (is_excluded excl (scale_row k r)) with (is_excluded excl r).
  destruct (is_excluded excl r); [reflexivity|]. cbn [rawBalance scale_row].
  replace (T * (k * rawBalance r)) with (k * (T * rawBalance r)) by lia.
  apply Z.quot_mul_cancel_l; assumption.
Qed.

(** X23. Only the proportions of the balances matter: multiplying every
    balance by the same positive factor leaves the outcome of the
    allocation, map or error, as it is. *)
Theorem allocation_scale_invariant (k : Z) (rows : list HolderRow) (T : Z)
    (excl : JSSet) :
  0 < k ->
  allocate (scale_rows k rows) T excl = allocate rows T excl.
Proof.
  intros Hk. rewrite !allocate_unfold. cbv zeta.
  rewrite eligible_sum_scale, eligible_rows_scale.
  set (E := eligible_sum rows excl).
  destruct (E =? 0) eqn:E0.
  - apply Z.eqb_eq in E0. rewrite E0, Z.mul_0_r. reflexivity.
  - apply Z.eqb_neq in E0.
    replace (k * E =? 0) with false by (symmetry; apply Z.eqb_neq; nia).
    assert (Hsh : forall r, share_of T (k * E) excl (scale_row k r) = share_of T E excl r).
    { intros r. apply share_of_scale; lia. }
    assert (Hfold : forall l m,
              fold_left (set_share T (k * E) excl) (scale_rows k l) m =
              fold_left (set_share T E excl) l m).
    { unfold scale_rows. induction l as [|r l IH]; intros m; cbn [map fold_left]; [reflexivity|].
      rewrite IH. unfold set_share at 2 4. rewrite Hsh. reflexivity. }
    rewrite Hfold.
    assert (Hsum : map (share_of T (k * E) excl) (scale_rows k rows)
                   = map (share_of T E excl) rows).
    { unfold scale_rows. rewrite map_map. apply map_ext, Hsh. }
    rewrite Hsum. unfold scale_rows at 1. rewrite length_map.
    destruct (eligible_rows rows excl) as [|first rest]; reflexivity.
Qed.

Lemma allocation_scale_invariant_witness :
  allocate (scale_rows 1000 witness_rows) 10 [js "x"] = allocate witness_rows 10 [js "x"].
Proof. apply (allocation_scale_invariant 1000 witness_rows 10 [js "x"]). lia. Defined.

(** *** No eligible holders *)

Lemma sum_nonneg_zero (l : list Z) :
  Forall (fun x => 0 <= x) l -> (sum l = 0 <-> Forall (fun x => x = 0) l).
Proof.
  unfold sum. induction l as [|x l IH]; intros H; cbn [fold_right].
  - split; [constructor|reflexivity].
  - apply Forall_cons_iff in H. destruct H as [Hx Hl]. specialize (IH Hl).
    assert (0 <= fold_right Z.add 0 l).
    { clear IH. induction l as [|y l IHl]; cbn [fold_right]; [lia|].
      apply Forall_cons_iff in Hl. destruct Hl as [Hy Hl]. specialize (IHl Hl). lia. }
    rewrite Forall_cons_iff, <- IH. lia.
Qed.

(** X24. With non-negative balances the allocation fails with
    NoEligibleHolders exactly when every holder that is not excluded has
    balance zero, which includes the case of no holders at all. *)
Theorem no_eligible_holders_meaning (rows : list HolderRow) (T : Z) (excl : JSSet) :
  Forall (fun r => 0 <= rawBalance r) rows ->
  (allocate rows T excl = Err NoEligibleHolders <->
   forall r, In r rows -> is_excluded excl r = false -> rawBalance r = 0).
Proof.
  intros Hb.
  assert (Hz : eligible_sum rows excl = 0 <->
               forall r, In r rows -> is_excluded excl r = false -> rawBalance r = 0).
  { unfold eligible_sum. rewrite sum_nonneg_zero.
    - rewrite Forall_map, Forall_forall. split.
      + intros H r Hr Hx. apply H, eligible_rows_In. split; assumption.
      + intros H r Hr. apply eligible_rows_In in Hr. apply H; apply Hr.
    - rewrite Forall_map. apply eligible_rows_nonneg, Hb. }
  rewrite <- Hz. split.
  - intros H. destruct (Z.eq_dec (eligible_sum rows excl) 0) as [E0|E0]; [exact E0|].
    destruct (allocate_succeeds rows T excl E0) as [m Hm]. congruence.
  - intros H. rewrite allocate_unfold. cbv zeta. rewrite H. reflexivity.
Qed.

Lemma no_eligible_holders_meaning_witness :
  allocate [row_of "0xAB" 100; row_of "0xcd" 0] 10 [js "0xab"] = Err NoEligibleHolders.
Proof.
  apply (no_eligible_holders_meaning [row_of "0xAB" 100; row_of "0xcd" 0] 10 [js "0xab"]).
  - repeat constructor; cbn; lia.
  - intros r [<-|[<-|[]]] H; [discriminate H|reflexivity].
Defined.

(** ** Report Builder: the file can be read back *)

Lemma forallb_impl {A} (p q : A -> bool) (l : list A) :
  (forall x, p x = true -> q x = true) -> forallb p l = true -> forallb q l = true.
Proof.
  intros Hpq. rewrite !forallb_forall. intros H x Hx. apply Hpq, H, Hx.
Qed.

Lemma forallb_firstn {A} (p : A -> bool) (n : nat) (l : list A) :
  forallb p l = true -> forallb p (firstn n l) = true.
Proof.
  intros H. rewrite <- (firstn_skipn n l) in H.
  apply forallb_app_true in H. apply H.
Qed.

Lemma forallb_skipn {A} (p : A -> bool) (n : nat) (l : list A) :
  forallb p l = true -> forallb p (skipn n l) = true.
Proof.
  intros H. rewrite <- (firstn_skipn n l) in H.
  apply forallb_app_true in H. apply H.
Qed.

Lemma is_digit_plain (c : ascii) : is_digit c = true -> plain c = true.
Proof.
  intros H. unfold plain.
  destruct (Ascii.eqb c ","%char) eqn:E1;
    [apply Ascii.eqb_eq in E1; subst c; discriminate H|].
  destruct (Ascii.eqb c newline) eqn:E2;
    [apply Ascii.eqb_eq in E2; subst c; discriminate H|]. reflexivity.
Qed.

Lemma toString_plain (raw : Z) : forallb plain (toString raw) = true.
Proof.
  assert (Hd : forall n, forallb plain (digits_of n) = true).
  { intros n. apply (forallb_impl is_digit plain); [apply is_digit_plain|].
    apply digits_of_is_digit. }
  unfold toString. destruct (raw <? 0); [cbn [forallb]; rewrite Hd; reflexivity|apply Hd].
Qed.

Lemma slice_plain (s : JSString) (a : Z) (b : option Z) :
  forallb plain s = true -> forallb plain (slice s a b) = true.
Proof.
  intros H. unfold slice. apply forallb_firstn, forallb_skipn, H.
Qed.

(** Numbers print without commas and line breaks. *)
Lemma formatUnits_plain (raw decimals : Z) :
  forallb plain (formatUnits raw decimals) = true.
Proof.
  unfold formatUnits. destruct (decimals <=? 0); [apply toString_plain|]. cbv zeta.
  set (s := padStart (toString raw) (decimals + 1) "0"%char).
  assert (Hs : forallb plain s = true).
  { unfold s, padStart. apply forallb_app_true. split; [|apply toString_plain].
    apply (forallb_impl is_digit plain); [apply is_digit_plain|apply is_digit_zeros]. }
  assert (Hf : forallb plain (replace_trailing_zeros (slice s (- decimals) None)) = true).
  { destruct (replace_trailing_zeros_split (slice s (- decimals) None)) as [k Hk].
    pose proof (slice_plain s (- decimals) None Hs) as Hp.
    rewrite Hk in Hp. apply forallb_app_true in Hp. apply Hp. }
  destruct (replace_trailing_zeros (slice s (- decimals) None)) as [|c fp].
  - apply slice_plain, Hs.
  - apply forallb_app_true. split; [apply slice_plain, Hs|].
    cbn [forallb]. cbn [forallb] in Hf. rewrite Hf. reflexivity.
Qed.

Lemma plain_without_comma (s : JSString) :
  forallb plain s = true -> without ","%char s.
Proof.
  apply forallb_impl. intros c H. unfold plain in H. apply andb_prop in H. apply H.
Qed.

Lemma plain_without_newline (s : JSString) :
  forallb plain s = true -> without newline s.
Proof.
  apply forallb_impl. intros c H. unfold plain in H. apply andb_prop in H. apply H.
Qed.

Lemma without_app (c : ascii) (a b : JSString) :
  without c a -> without c b -> without c (a ++ b).
Proof. unfold without. intros Ha Hb. apply forallb_app_true. split; assumption. Qed.

Lemma without_cons (c x : ascii) (s : JSString) :
  Ascii.eqb x c = false -> without c s -> without c (x :: s).
Proof. unfold without. intros Hx Hs. cbn [forallb]. rewrite Hx, Hs. reflexivity. Qed.

(** X25. A line of the report reads back field by field: when the
    address holds no comma, splitting the line at the commas gives the
    rank (the index plus one), the address, the formatted balance and,
    with an allocation, the formatted airdrop amount, each as one field. *)
Theorem report_line_fields (decimals : Z) (airdrop : option JSMap) (i : nat)
    (row : HolderRow) :
  without ","%char (address row) ->
  split ","%char (report_line decimals airdrop i row) =
    toString (Z.of_nat i + 1) :: address row
      :: formatUnits (rawBalance row) decimals
      :: match airdrop with
         | None => []
         | Some m => [formatUnits (nullish (map_get (address row) m) 0) decimals]
         end.
Proof.
  intros Ha. unfold report_line.
  pose proof (plain_without_comma _ (toString_plain (Z.of_nat i + 1))) as Hr.
  pose proof (plain_without_comma _ (formatUnits_plain (rawBalance row) decimals)) as Hb.
  destruct airdrop as [m|]; cbv zeta.
  - pose proof (plain_without_comma _
                  (formatUnits_plain (nullish (map_get (address row) m) 0) decimals)) as Hd.
    rewrite (split_at_sep _ _ _ Hr), (split_at_sep _ _ _ Ha), (split_at_sep _ _ _ Hb).
    rewrite (split_no_sep _ _ Hd). reflexivity.
  - rewrite (split_at_sep _ _ _ Hr), (split_at_sep _ _ _ Ha).
    rewrite (split_no_sep _ _ Hb). reflexivity.
Qed.

Lemma report_line_fields_witness :
  split ","%char (report_line 6 (Some [(js "0xa", 500000)]) 0 (row_of "0xa" 1500000)) =
    [js "1"; js "0xa"; js "1.5"; js "0.5"].
Proof.
  apply (report_line_fields 6 (Some [(js "0xa", 500000)]) 0 (row_of "0xa" 1500000)).
  reflexivity.
Defined.

Lemma split_join_newline (lines : list JSString) :
  lines <> [] ->
  Forall (without newline) lines ->
  split newline (join [newline] lines ++ [newline]) = lines ++ [[]].
Proof.
  induction lines as [|x rest IH]; intros Hne Hl; [contradiction|].
  apply Forall_cons_iff in Hl. destruct Hl as [Hx Hl].
  destruct rest as [|y rest'].
  - cbn [join app]. rewrite (split_at_sep _ _ _ Hx). reflexivity.
  - change (join [newline] (x :: y :: rest'))
      with (x ++ [newline] ++ join [newline] (y :: rest')).
    rewrite <- !app_assoc. cbn [app].
    rewrite (split_at_sep _ _ _ Hx), (IH ltac:(discriminate) Hl). reflexivity.
Qed.

Lemma report_line_without_newline (decimals : Z) (airdrop : option JSMap) (i : nat)
    (row : HolderRow) :
  without newline (address row) -> without newline (report_line decimals airdrop i row).
Proof.
  intros Ha. unfold report_line.
  pose proof (plain_without_newline _ (toString_plain (Z.of_nat i + 1))) as Hr.
  pose proof (plain_without_newline _ (formatUnits_plain (rawBalance row) decimals)) as Hb.
  destruct airdrop as [m|]; cbv zeta;
    repeat (apply without_app || apply without_cons || assumption || reflexivity
            || apply plain_without_newline, formatUnits_plain).
Qed.

Lemma push_lines_without_newline (decimals : Z) (airdrop : option JSMap)
    (rows : list HolderRow) :
  forall i,
    Forall (fun r => without newline (address r)) rows ->
    Forall (without newline) (push_lines decimals airdrop i rows).
Proof.
  induction rows as [|r rows IH]; intros i H; cbn [push_lines]; [constructor|].
  apply Forall_cons_iff in H. destruct H as [Hr H].
  constructor; [apply report_line_without_newline, Hr|apply IH, H].
Qed.

Lemma push_lines_length (decimals : Z) (airdrop : option JSMap) (rows : list HolderRow) :
  forall i, length (push_lines decimals airdrop i rows) = length rows.
Proof.
  induction rows as [|r rows IH]; intros i; cbn [push_lines length]; [reflexivity|].
  rewrite IH. reflexivity.
Qed.

(** X26. The file reads back line by line: when no address holds a line
    break, splitting the written text at the line breaks gives the header,
    one line per row, and the empty string after the final line break;
    no row is left out. *)
Theorem csv_text_lines (rows : list HolderRow) (decimals : Z) (airdrop : option JSMap) :
  Forall (fun r => without newline (address r)) rows ->
  split newline (csv_text (report_lines rows decimals airdrop)) =
    report_lines rows decimals airdrop ++ [[]] /\
  length (report_lines rows decimals airdrop) = S (length rows).
Proof.
  intros H. split.
  - unfold csv_text. apply split_join_newline; [discriminate|].
    unfold report_lines. constructor.
    + destruct airdrop; reflexivity.
    + apply push_lines_without_newline, H.
  - unfold report_lines. cbn [length]. rewrite push_lines_length. reflexivity.
Qed.

Lemma csv_text_lines_witness :
  split newline (csv_text (report_lines [row_of "0xa" 150; row_of "0xb" 5] 2 None)) =
    report_lines [row_of "0xa" 150; row_of "0xb" 5] 2 None ++ [[]] /\
  length (report_lines [row_of "0xa" 150; row_of "0xb" 5] 2 None) = 3%nat.
Proof.
  apply (csv_text_lines [row_of "0xa" 150; row_of "0xb" 5] 2 None).
  repeat constructor.
Defined.

(** ** The run: from the balance map to the allocation *)

Lemma rows_of_nonneg (balances : JSMap) :
  Forall (fun v => 0 <= v) (map_values balances) ->
  Forall (fun r => 0 <= rawBalance r) (rows_of balances).
Proof.
  unfold map_values, rows_of. rewrite Forall_map, !Forall_forall.
  intros H r Hr. apply (proj1 (sort_rows_In r _)) in Hr.
  apply in_map_iff in Hr. destruct Hr as [e [<- He]]. cbn. apply H, He.
Qed.

Lemma sum_nonneg (l : list Z) : Forall (fun x => 0 <= x) l -> 0 <= sum l.
Proof.
  unfold sum. induction l as [|x l IH]; intros H; cbn [fold_right]; [lia|].
  apply Forall_cons_iff in H. destruct H as [Hx Hl]. specialize (IH Hl). lia.
Qed.

Lemma allocate_total (rows : list HolderRow) (T : Z) (excl : JSSet) (m : JSMap) :
  NoDup (map address rows) ->
  Forall (fun r => 0 <= rawBalance r) rows ->
  0 <= T ->
  allocate rows T excl = Ok m ->
  sum (map_values m) = T.
Proof.
  intros Hnd Hb HT Hm.
  assert (HE : 0 < eligible_sum rows excl).
  { assert (H0 : 0 <= eligible_sum rows excl).
    { unfold eligible_sum. apply sum_nonneg. rewrite Forall_map.
      apply eligible_rows_nonneg, Hb. }
    destruct (Z.eq_dec (eligible_sum rows excl) 0) as [E0|E0]; [|lia].
    rewrite allocate_unfold in Hm. cbv zeta in Hm. rewrite E0 in Hm. discriminate Hm. }
  pose proof (remainder_nonneg rows T excl Hb HT HE) as Hrem.
  rewrite allocate_unfold in Hm. cbv zeta in Hm.
  destruct (eligible_sum rows excl =? 0) eqn:E0; [discriminate Hm|].
  rewrite set_share_entries in Hm by (assumption || reflexivity). cbn [app] in Hm.
  destruct (eligible_rows_nonempty rows excl ltac:(lia)) as [first [rest Hel]].
  rewrite Hel in Hm.
  set (E := eligible_sum rows excl) in *.
  pose proof (sum_values_entries T E excl rows) as Hsum.
  destruct (T - sum (map (share_of T E excl) rows) >? 0) eqn:Er.
  - cbn [andb length] in Hm.
    replace (Z.of_nat (S (length rest)) >? 0) with true in Hm
      by (symmetry; rewrite Z.gtb_ltb; apply Z.ltb_lt; lia).
    injection Hm as <-. rewrite sum_values_set, Hsum. lia.
  - cbn [andb] in Hm. injection Hm as <-.
    rewrite Z.gtb_ltb in Er. apply Z.ltb_ge in Er. lia.
Qed.

(** X27. From the balance map to the allocation: when the keys of the
    balance map are distinct and its balances non-negative, an airdrop
    step that returns a map has parsed the amount of the command line,
    and the values of the map sum to exactly that amount. *)
Theorem airdrop_step_exact (cli : CliArgs) (decimals : Z) (balances m : JSMap) :
  NoDup (map_keys balances) ->
  Forall (fun v => 0 <= v) (map_values balances) ->
  airdrop_step cli decimals (rows_of balances) = Ok (Some m) ->
  exists amount total,
    airdropAmount cli = Some amount /\
    parseUnits amount decimals = Ok total /\
    sum (map_values m) = total.
Proof.
  intros Hnd Hv H. unfold airdrop_step in H.
  destruct (airdropAmount cli) as [amount|]; [|discriminate H].
  destruct (parseUnits amount decimals) as [total|e] eqn:Ep; [|discriminate H].
  destruct (allocate (rows_of balances) total (excludedAddresses cli)) as [m'|e] eqn:Ea;
    [|discriminate H].
  injection H as <-. exists amount, total. split; [reflexivity|]. split; [exact Ep|].
  destruct (parseUnits_ok_inv _ _ _ Ep) as [ip [fp [_ [_ [_ Ht]]]]].
  apply (allocate_total _ _ _ _ (rows_of_NoDup _ Hnd) (rows_of_nonneg _ Hv) Ht Ea).
Qed.

Lemma airdrop_step_exact_witness :
  exists amount total,
    airdropAmount {| coinAddress := js "0x2::sui::SUI";
                     airdropAmount := Some (js "0.10");
                     excludedAddresses := [js "0xb"] |} = Some amount /\
    parseUnits amount 2 = Ok total /\
    sum (map_values [(js "0xa", 4); (js "0xc", 3); (js "0xd", 3); (js "0xb", 0)]) = total.
Proof.
  apply (airdrop_step_exact _ 2
           [(js "0xa", 100); (js "0xb", 50); (js "0xc", 100); (js "0xd", 100)]).
  - repeat constructor; cbn; intuition discriminate.
  - repeat constructor; cbn; lia.
  - reflexivity.
Defined.

(** ** The run: when errors are reported *)

Lemma process_page_error (payload : Payload) (m : JSMap) (e : error) :
  process_page payload m = Err e ->
  e = MalformedResponse \/ e = TypeError \/ e = SyntaxError.
Proof.
  unfold process_page. destruct payload as [c|]; [|intros H; injection H as <-; auto].
  destruct (add_nodes (nullish (nodes c) []) m) as [m'|e'] eqn:E.
  - destruct (pageInfo c) as [i|]; [destruct (hasNextPage i)|]; discriminate.
  - intros H. injection H as <-. apply add_nodes_error in E. destruct E; auto.
Qed.

Lemma aggregate_error (Server : Type)
    (post : Server -> option JSString -> result (Payload * Server)) :
  (forall s c e, post s c = Err e -> e = HttpError) ->
  forall fuel s c m e,
    aggregate Server post fuel s c m = Some (Err e) ->
    e = HttpError \/ e = MalformedResponse \/ e = TypeError \/ e = SyntaxError.
Proof.
  intros Hpost fuel. induction fuel as [|fuel IH]; intros s c m e H; [discriminate H|].
  cbn [aggregate] in H.
  destruct (post s c) as [[payload s']|e'] eqn:Ep.
  - destruct (process_page payload m) as [[m' [c'|]]|e'] eqn:Epp.
    + apply (IH _ _ _ _ H).
    + discriminate H.
    + injection H as <-. apply process_page_error in Epp. intuition.
  - injection H as <-. left. apply (Hpost _ _ _ Ep).
Qed.

Lemma postObjects_error (Server : Type)
    (fetchGraphQL : Server -> Request -> option (Response * Server))
    (coinObjectType : JSString) (s : Server) (c : option JSString) (e : error) :
  postObjects Server fetchGraphQL coinObjectType s c = Err e -> e = HttpError.
Proof.
  unfold postObjects. destruct (fetchGraphQL s _) as [[r s']|]; [discriminate|].
  intros H. injection H as <-. reflexivity.
Qed.

(** X28. The amount and the eligible holders are checked only after the
    scan: when a run ends with InvalidAmount, PrecisionOverflow or
    NoEligibleHolders, the command line was accepted, the metadata
    request was answered, and the paging loop had fetched every page and
    built the whole balance map. *)
Theorem main_allocation_errors_after_scan (Server : Type)
    (fetchGraphQL : Server -> Request -> option (Response * Server))
    (fuel : nat) (argv : list JSString) (server : Server) (e : error) :
  main Server fetchGraphQL fuel argv server = Some (Err e) ->
  e = InvalidAmount \/ e = PrecisionOverflow \/ e = NoEligibleHolders ->
  exists cli response server1 balances,
    parseCliArgs argv = Ok cli /\
    fetchGraphQL server (CoinMetadataQuery (coinAddress cli)) = Some (response, server1) /\
    aggregate Server
      (postObjects Server fetchGraphQL (js "0x2::coin::Coin<" ++ coinAddress cli ++ js ">"))
      fuel server1 None [] = Some (Ok balances) /\
    snapshot_csv cli (decimals_of (coinMetadata_decimals response)) balances = Err e.
Proof.
  intros H He. unfold main in H.
  destruct (parseCliArgs argv) as [cli|e0] eqn:Ec.
  - cbv zeta in H.
    destruct (fetchGraphQL server (CoinMetadataQuery (coinAddress cli)))
      as [[response server1]|] eqn:Em.
    + destruct (aggregate Server _ fuel server1 None []) as [[balances|e1]|] eqn:Ea.
      * injection H as H. exists cli, response, server1, balances. auto.
      * injection H as <-. exfalso.
        apply (aggregate_error Server _ (postObjects_error Server fetchGraphQL _)) in Ea.
        destruct He as [-> | [-> | ->]]; destruct Ea as [Ea|[Ea|[Ea|Ea]]]; discriminate Ea.
      * discriminate H.
    + injection H as <-. exfalso. destruct He as [He|[He|He]]; discriminate He.
  - injection H as <-. exfalso.
    destruct (parseCliArgs_error_cases _ _ Ec) as [H1|[H1|[H1|[[a [_ [_ H1]]]|H1]]]];
      subst e0; destruct He as [He|[He|He]]; discriminate He.
Qed.

Lemma main_allocation_errors_after_scan_witness :
  exists cli response server1 balances,
    parseCliArgs [js "0x2::sui::SUI"; js "--airdrop"; js "1.005"] = Ok cli /\
    replay [{| coinMetadata_decimals := DecimalsInteger 2; data_objects := None |};
            {| coinMetadata_decimals := DecimalsOther;
               data_objects := page_of [(js "0xa", 100)] None |}]
      (CoinMetadataQuery (coinAddress cli)) = Some (response, server1) /\
    aggregate (list Response)
      (postObjects (list Response) replay (js "0x2::coin::Coin<" ++ coinAddress cli ++ js ">"))
      3 server1 None [] = Some (Ok balances) /\
    snapshot_csv cli (decimals_of (coinMetadata_decimals response)) balances
      = Err PrecisionOverflow.
Proof.
  apply (main_allocation_errors_after_scan (list Response) replay 3
           [js "0x2::sui::SUI"; js "--airdrop"; js "1.005"]).
  - reflexivity.
  - right. left. reflexivity.
Defined.

(** ** The two versions of the script *)

Lemma format_v1_formatUnits (raw decimals : Z) :
  format_v1 raw decimals = formatUnits raw decimals.
Proof. reflexivity. Qed.

Lemma push_lines_v1_eq (decimals : Z) (rows : list HolderRow) :
  forall i, push_lines_v1 decimals i rows = push_lines decimals None i rows.
Proof.
  induction rows as [|r rows IH]; intros i; cbn [push_lines_v1 push_lines]; [reflexivity|].
  rewrite IH. reflexivity.
Qed.

(** X29. The second version, given only a coin address, does what the
    first version did: for a single argument that is not blank and does
    not start with [--], both make the same requests and end the same
    way, with the same text for the file or the same error. *)
Theorem main_v1_compatible (Server : Type)
    (fetchGraphQL : Server -> Request -> option (Response * Server))
    (fuel : nat) (first : JSString) (server : Server) :
  trim first <> [] ->
  startsWith (trim first) (js "--") = false ->
  main_v1 Server fetchGraphQL fuel [first] server =
    match main Server fetchGraphQL fuel [first] server with
    | Some r => Some (Finished r)
    | None => None
    end.
Proof.
  intros Hne Hflag. unfold main_v1, main. rewrite parseCliArgs_unfold.
  destruct (is_empty (trim first)) eqn:Ee.
  { destruct (trim first); [contradiction|discriminate Ee]. }
  rewrite Hflag. cbn [orb parse_flags finish_cli set_size length Z.of_nat Z.gtb
                      Z.compare andb coinAddress]. cbv zeta.
  destruct (fetchGraphQL server (CoinMetadataQuery (trim first)))
    as [[response server1]|]; [|reflexivity].
  destruct (aggregate Server _ fuel server1 None []) as [[balances|e]|]; try reflexivity.
  unfold snapshot_csv, airdrop_step, csv_text, report_lines, header.
  cbn [airdropAmount]. rewrite push_lines_v1_eq. reflexivity.
Qed.

Lemma main_v1_compatible_witness :
  main_v1 (list Response) replay 3 [js " 0x2::sui::SUI "]
    [{| coinMetadata_decimals := DecimalsInteger 2; data_objects := None |};
     {| coinMetadata_decimals := DecimalsOther;
        data_objects := page_of [(js "0xa", 150); (js "0xb", 5)] None |}] =
  match main (list Response) replay 3 [js " 0x2::sui::SUI "]
          [{| coinMetadata_decimals := DecimalsInteger 2; data_objects := None |};
           {| coinMetadata_decimals := DecimalsOther;
              data_objects := page_of [(js "0xa", 150); (js "0xb", 5)] None |}] with
  | Some r => Some (Finished r)
  | None => None
  end.
Proof.
  apply (main_v1_compatible (list Response) replay 3 (js " 0x2::sui::SUI ")).
  - discriminate.
  - reflexivity.
Defined.
